(** * Trans.eu arbitrage detector: a shallow embedding of [src/app.py]

  The development follows the Python source function by function:
  - [Py]: the JSON values the marketplace returns and the fragment of
    Python's dynamic semantics the code exercises on them ([dict.get],
    [len], indexing, [str.upper]), with exceptions as an error result;
  - [Freight], [Stats]: the two dictionaries the code builds, as records;
  - [extract_freight_data]: the normalisation loop, including the
    function-scoped variable [freight] its exception handler reads;
  - [detect_arbitrage_opportunities]: the pandas pipeline (groupby with
    sorted keys, aggregation, rounding, filter, sort_values);
  - [get_access_token]: the token cache, once as a sequential function over
    a clock and a server, once as an interleaving of atomic steps;
  - [get_route_details]: the single-route endpoint;
  - [is_configured], [get_headers], [get_freight_proposals] and the
    endpoints [get_freights], [analyze_arbitrage] and [api_status], over the
    same clock and server and a listing endpoint.

  Numbers are exact rationals: a price is a [Q], rounding to [k] decimals
  is numpy's [rint (x * 10^k) / 10^k] with ties going to the even integer.
  The code computes in binary floating point, so a mean or a rounded value
  of the model can differ from the code's in its last decimal. What is
  stated of numbers is what holds of both: which rows pass a threshold, how
  values are ordered, how many there are, and what happens at zero.
  Text is ASCII, so [str.upper] maps [a-z] to [A-Z] and string comparison
  is the lexicographic order on character codes. *)

From Stdlib Require Import ZArith QArith Qminmax List String Ascii Bool Lia.
From Stdlib Require Import Sorted Permutation RelationClasses Morphisms OrdersEx.
From Stdlib Require Import Lqa.
Import ListNotations.

Set Warnings "-register-all".

Local Open Scope string_scope.
Local Open Scope list_scope.

(* ================================================================== *)
(** * Definitions *)
(* ================================================================== *)

(** ** Python values and exceptions *)

Module Py.

(** A decoded JSON document ([response.json()]). A dictionary keeps its
    items in order; [lookup] returns the first binding of a key. *)
Inductive json : Type :=
| JNull : json
| JBool : bool -> json
| JNum : Q -> json
| JStr : string -> json
| JList : list json -> json
| JDict : list (string * json) -> json.

(** The exceptions the modelled code can raise. *)
Inductive exn : Type :=
| AttributeError
| TypeError
| KeyError
| IndexError
| UnboundLocalError
| ZeroDivisionError
| HTTPError.

(** A computation either returns or raises. *)
Inductive result (A : Type) : Type :=
| Ok : A -> result A
| Raise : exn -> result A.
Arguments Ok {A} _.
Arguments Raise {A} _.

Definition bind {A B : Type} (m : result A) (k : A -> result B) : result B :=
  match m with
  | Ok a => k a
  | Raise e => Raise e
  end.

Fixpoint lookup (k : string) (items : list (string * json)) : option json :=
  match items with
  | [] => None
  | (k', v) :: rest => if String.eqb k k' then Some v else lookup k rest
  end.

(** [o.get(k, d)]: only dictionaries have a [get] method. *)
Definition get (o : json) (k : string) (d : json) : result json :=
  match o with
  | JDict items =>
      Ok (match lookup k items with Some v => v | None => d end)
  | _ => Raise AttributeError
  end.

(** [len(o)]: defined on lists, strings and dictionaries. *)
Definition len (o : json) : result nat :=
  match o with
  | JList l => Ok (List.length l)
  | JStr s => Ok (String.length s)
  | JDict items => Ok (List.length items)
  | _ => Raise TypeError
  end.

(** [o[0]] for an object whose [len] is at least 2. A string yields its
    first character, a dictionary has no integer key. *)
Definition first (o : json) : result json :=
  match o with
  | JList (x :: _) => Ok x
  | JList [] => Raise IndexError
  | JStr (String c _) => Ok (JStr (String c EmptyString))
  | JStr EmptyString => Raise IndexError
  | JDict _ => Raise KeyError
  | _ => Raise TypeError
  end.

Fixpoint last_char (s : string) : option ascii :=
  match s with
  | EmptyString => None
  | String c EmptyString => Some c
  | String _ s' => last_char s'
  end.

(** [o[-1]]. *)
Definition last (o : json) : result json :=
  match o with
  | JList l =>
      match List.rev l with
      | x :: _ => Ok x
      | [] => Raise IndexError
      end
  | JStr s =>
      match last_char s with
      | Some c => Ok (JStr (String c EmptyString))
      | None => Raise IndexError
      end
  | JDict _ => Raise KeyError
  | _ => Raise TypeError
  end.

Definition upper_ascii (c : ascii) : ascii :=
  let n := nat_of_ascii c in
  if ((97 <=? n) && (n <=? 122))%nat then ascii_of_nat (n - 32) else c.

Fixpoint upper_string (s : string) : string :=
  match s with
  | EmptyString => EmptyString
  | String c s' => String (upper_ascii c) (upper_string s')
  end.

(** [o.upper()]: only strings have the method. *)
Definition upper (o : json) : result string :=
  match o with
  | JStr s => Ok (upper_string s)
  | _ => Raise AttributeError
  end.

(** The number a value denotes in arithmetic ([bool] is a subclass of
    [int]); [None] for the values on which [sum], [min] and [-] raise. *)
Definition number (o : json) : option Q :=
  match o with
  | JNum q => Some q
  | JBool b => Some (if b then 1 else 0)
  | _ => None
  end.

End Py.

Notation "x <- m ;; k" := (Py.bind m (fun x => k))
  (at level 61, m at next level, right associativity).

(** ** The two dictionaries the code builds *)

(** The [freight_record] dictionary of [extract_freight_data]. The two
  country codes and the route are strings by construction; every other
  field carries whatever JSON value the offer held. *)
Module Freight.
Record t : Type := mk {
  freight_id : Py.json;
  status : Py.json;
  price : Py.json;
  currency : Py.json;
  capacity : Py.json;
  capacity_unit : Py.json;
  loading_country : string;
  loading_city : Py.json;
  unloading_country : string;
  unloading_city : Py.json;
  route : string;
  distance_km : Py.json
}.
End Freight.

(** One row of [route_analysis] after [reset_index] and the added
  [price_volatility] column. *)
Module Stats.
Record t : Type := mk {
  route : string;
  price_mean : Q;
  price_min : Q;
  price_max : Q;
  price_count : nat;
  price_volatility : Q
}.
End Stats.

(** ** FreightNormalizer: [TransEuAPIClient.extract_freight_data] *)

Import Py.

(** The local variables of the function that outlive one loop iteration:
    [freight] (unbound until the first successful assignment, and read by the
    exception handler), the accumulator [freight_data], and what the handler
    printed (the offer id it showed and the exception it reported). *)
Record locals : Type := mk_locals {
  freight : option json;
  freight_data : list Freight.t;
  stdout : list (json * exn)
}.

(** Lines 234-278: the statements of the [try] block after [freight] has
    been assigned. [Ok None] is the silent fall-through of
    [if len(spots) >= 2]. *)
Definition build_record (proposal fr : json) : result (option Freight.t) :=
  freight_id <- get fr "id" JNull ;;
  status <- get proposal "status" JNull ;;
  publication <- get fr "publication" (JDict []) ;;
  price_info <- get publication "price" (JDict []) ;;
  price <- get price_info "value" (JNum 0) ;;
  currency <- get price_info "currency" (JStr "EUR") ;;
  capacity_info <- get fr "capacity" (JDict []) ;;
  capacity <- get capacity_info "value" (JNum 0) ;;
  capacity_unit <- get capacity_info "unit_code" (JStr "t") ;;
  spots <- get fr "spots" (JList []) ;;
  n <- len spots ;;
  if (2 <=? n)%nat then
    loading_spot <- first spots ;;
    loading_place <- get loading_spot "place" (JDict []) ;;
    loading_address <- get loading_place "address" (JDict []) ;;
    loading_code <- get loading_address "country" (JStr "") ;;
    loading_country <- upper loading_code ;;
    loading_city <- get loading_address "locality" (JStr "") ;;
    unloading_spot <- last spots ;;
    unloading_place <- get unloading_spot "place" (JDict []) ;;
    unloading_address <- get unloading_place "address" (JDict []) ;;
    unloading_code <- get unloading_address "country" (JStr "") ;;
    unloading_country <- upper unloading_code ;;
    unloading_city <- get unloading_address "locality" (JStr "") ;;
    distance <- get fr "distance" (JNum 0) ;;
    Ok (Some (Freight.mk freight_id status price currency capacity
                capacity_unit loading_country loading_city
                unloading_country unloading_city
                (loading_country ++ "-" ++ unloading_country)
                distance))
  else Ok None.

(** Lines 230-278: the [try] block. The assignment to [freight] happens
    only if [proposal.get] returned; a later exception leaves the new
    binding in place. *)
Definition try_block (proposal : json) (st : locals)
  : locals * result unit :=
  match get proposal "freight" (JDict []) with
  | Raise e => (st, Raise e)
  | Ok fr =>
      let st1 := mk_locals (Some fr) (freight_data st) (stdout st) in
      match build_record proposal fr with
      | Raise e => (st1, Raise e)
      | Ok None => (st1, Ok tt)
      | Ok (Some freight_record) =>
          (mk_locals (Some fr) (freight_data st ++ [freight_record])
             (stdout st), Ok tt)
      end
  end.

(** Lines 280-282: [except Exception as e]. The message formats
    [freight.get('id', 'unknown')], so the handler itself raises when
    [freight] is unbound or is not a dictionary. *)
Definition except_block (e : exn) (st : locals) : result locals :=
  match freight st with
  | None => Raise UnboundLocalError
  | Some fr =>
      shown <- get fr "id" (JStr "unknown") ;;
      Ok (mk_locals (freight st) (freight_data st) (stdout st ++ [(shown, e)]))
  end.

(** Lines 229-282: the [for] loop. *)
Fixpoint for_proposals (proposals : list json) (st : locals)
  : result locals :=
  match proposals with
  | [] => Ok st
  | proposal :: rest =>
      match try_block proposal st with
      | (st1, Ok _) => for_proposals rest st1
      | (st1, Raise e) =>
          st2 <- except_block e st1 ;; for_proposals rest st2
      end
  end.

Definition extract_freight_data (proposals : list json)
  : result (list Freight.t) :=
  st <- for_proposals proposals (mk_locals None [] []) ;;
  Ok (freight_data st).

(** ** ArbitrageDetector: [TransEuAPIClient.detect_arbitrage_opportunities] *)

(** numpy's [rint]: the nearest integer, a tie going to the even one. *)
Definition rint (q : Q) : Z :=
  let n := Qnum q in
  let d := Zpos (Qden q) in
  let f := (n / d)%Z in
  match (2 * (n mod d) ?= d)%Z with
  | Lt => f
  | Gt => (f + 1)%Z
  | Eq => if Z.even f then f else (f + 1)%Z
  end.

(** [x.round(decimals)]: scale, [rint], scale back, on exact rationals; the
    float64 result of the code can differ in the last decimal where the
    scaled value lies next to a tie. The result is kept in lowest terms, so
    that equal numbers are equal terms. *)
Definition round (decimals : nat) (q : Q) : Q :=
  let scale := inject_Z (10 ^ Z.of_nat decimals) in
  Qred (inject_Z (rint (q * scale)) / scale).

(** The two columns of [pd.DataFrame(freight_data)] the detector reads. A
    frame exists in this model only when every price is a JSON number;
    pandas' treatment of null, boolean or textual prices is not modelled. *)
Definition DataFrame : Type := list (string * Q).

Definition price_column (f : Freight.t) : option Q :=
  match Freight.price f with
  | JNum q => Some q
  | _ => None
  end.

Fixpoint pd_DataFrame (freight_data : list Freight.t) : option DataFrame :=
  match freight_data with
  | [] => Some []
  | f :: rest =>
      match price_column f, pd_DataFrame rest with
      | Some q, Some df => Some ((Freight.route f, q) :: df)
      | _, _ => None
      end
  end.

(** [df.groupby('route')]: one group per distinct key, the groups listed in
    ascending key order ([sort=True] is the default), each group holding its
    rows in frame order. A row joins its group, or opens a new group at the
    key's place. *)
Fixpoint group_insert (r : string) (p : Q) (groups : list (string * list Q))
  : list (string * list Q) :=
  match groups with
  | [] => [(r, [p])]
  | (k, ps) :: rest =>
      match String_as_OT.compare r k with
      | Eq => (k, ps ++ [p]) :: rest
      | Lt => (r, [p]) :: groups
      | Gt => (k, ps) :: group_insert r p rest
      end
  end.

Definition groupby_route (df : DataFrame) : list (string * list Q) :=
  fold_left (fun groups row => group_insert (fst row) (snd row) groups) df [].

Definition series_sum (ps : list Q) : Q := fold_left Qplus ps 0.

Definition series_mean (ps : list Q) : Q :=
  series_sum ps / inject_Z (Z.of_nat (List.length ps)).

(** [min] and [max] of a group; a group is never empty. *)
Definition series_min (ps : list Q) : Q :=
  match ps with
  | [] => 0
  | p :: rest => fold_left Qmin rest p
  end.

Definition series_max (ps : list Q) : Q :=
  match ps with
  | [] => 0
  | p :: rest => fold_left Qmax rest p
  end.

(** [Series.replace(0, 1)]. *)
Definition replace_0_1 (x : Q) : Q := if Qeq_bool x 0 then 1 else x.

(** Lines 294-305: one row of [route_analysis]. The aggregates are rounded
    first; the volatility is computed from the rounded columns. *)
Definition analysis_row (group : string * list Q) : Stats.t :=
  let ps := snd group in
  let price_mean := round 2 (series_mean ps) in
  let price_min := round 2 (series_min ps) in
  let price_max := round 2 (series_max ps) in
  Stats.mk (fst group) price_mean price_min price_max (List.length ps)
    (round 3 ((price_max - price_min) / replace_0_1 price_mean)).

Definition route_analysis (df : DataFrame) : list Stats.t :=
  map analysis_row (groupby_route df).

(** Lines 308-310: the boolean mask. *)
Definition Qgtb (x y : Q) : bool := negb (Qle_bool x y).

Definition is_arbitrage (row : Stats.t) : bool :=
  Qgtb (Stats.price_volatility row) (2 # 10)
  && (2 <=? Stats.price_count row)%nat.

(** [sort_values('price_volatility', ascending=False)]. pandas' [nargsort]
    reverses the column, sorts it ascending and reverses the outcome. The
    ascending sort is here an insertion sort. The code runs pandas' default,
    quicksort, which is not stable: it returns the rows in non-increasing
    order of volatility and promises nothing about rows of equal
    volatility. [detect_with], below, leaves the sort open. *)
Fixpoint insert_asc (x : Stats.t) (l : list Stats.t) : list Stats.t :=
  match l with
  | [] => [x]
  | y :: rest =>
      if Qle_bool (Stats.price_volatility x) (Stats.price_volatility y)
      then x :: l
      else y :: insert_asc x rest
  end.

Definition argsort_asc (l : list Stats.t) : list Stats.t :=
  fold_right insert_asc [] l.

Definition sort_values_desc (l : list Stats.t) : list Stats.t :=
  rev (argsort_asc (rev l)).

(** The whole function. [None] is a frame outside the model (a price that
    is not a number). *)
Definition detect_arbitrage_opportunities (freight_data : list Freight.t)
  : option (list Stats.t) :=
  match freight_data with
  | [] => Some []
  | _ =>
      match pd_DataFrame freight_data with
      | None => None
      | Some df =>
          Some (sort_values_desc (filter is_arbitrage (route_analysis df)))
      end
  end.

(** ** Single-route drill-down: [get_route_details] *)

(** The [statistics] dictionary of the response. *)
Record route_statistics : Type := mk_route_statistics {
  count : nat;
  min_price : Q;
  max_price : Q;
  avg_price : Q;
  price_spread : Q;
  volatility : Q
}.

(** The JSON bodies the endpoint can answer with. *)
Inductive payload : Type :=
| NotConfigured
| RouteNotFound (route_code : string)
| RouteDetails (route : string) (freights : list Freight.t)
    (statistics : route_statistics)
| EndpointError (e : exn).

(** [[f['price'] for f in route_freights]] as numbers: [min], [max] or
    [sum] raise [TypeError] as soon as one price is not a number. *)
Fixpoint numbers (prices : list json) : result (list Q) :=
  match prices with
  | [] => Ok []
  | p :: rest =>
      match number p with
      | None => Raise TypeError
      | Some q => qs <- numbers rest ;; Ok (q :: qs)
      end
  end.

(** Python's [/]. *)
Definition truediv (x y : Q) : result Q :=
  if Qeq_bool y 0 then Raise ZeroDivisionError else Ok (x / y).

(** Lines 417-430, on exact rationals. The code divides and rounds floats,
    so its rounded mean and volatility can differ in the last decimal; what
    is stated of these statistics is their behaviour at a zero mean and
    which records they are taken from. *)
Definition statistics_of (route_freights : list Freight.t)
  : result route_statistics :=
  prices <- numbers (map Freight.price route_freights) ;;
  let n := inject_Z (Z.of_nat (List.length prices)) in
  avg <- truediv (series_sum prices) n ;;
  mean <- truediv (series_sum prices) n ;;
  vol <- truediv (series_max prices - series_min prices) mean ;;
  Ok (mk_route_statistics (List.length route_freights)
        (series_min prices) (series_max prices) (round 2 avg)
        (series_max prices - series_min prices) (round 3 vol)).

(** Lines 407-431: the part of the endpoint after the offers have been
    normalised. *)
Definition route_details (freight_data : list Freight.t) (route_code : string)
  : result payload :=
  let route_freights :=
    filter (fun f => String.eqb (Freight.route f) (upper_string route_code))
      freight_data in
  match route_freights with
  | [] => Ok (RouteNotFound route_code)
  | _ =>
      statistics <- statistics_of route_freights ;;
      Ok (RouteDetails (upper_string route_code) route_freights statistics)
  end.

(** The endpoint. [configured] is [api_client.is_configured()], [fetched]
    the outcome of [api_client.get_freight_proposals(limit=500)]. Every
    exception ends in the blanket handler of lines 433-437. *)
Definition get_route_details (configured : bool)
  (fetched : result (list json)) (route_code : string) : payload :=
  if negb configured then NotConfigured
  else
    match (proposals <- fetched ;;
           freight_data <- extract_freight_data proposals ;;
           route_details freight_data route_code) with
    | Ok body => body
    | Raise e => EndpointError e
    end.

(** ** TokenManager: [TransEuAPIClient.get_access_token] *)

(** The two attributes of the client the function reads and writes.
    Timestamps and durations are whole seconds. *)
Record client : Type := mk_client {
  access_token : option string;
  token_expires_at : option Z
}.

(** What the token endpoint answers, as far as it is modelled: a non-2xx
    status, on which [raise_for_status] raises before anything is stored, or
    a body whose [access_token] is a string and whose [expires_in] is an
    integer or missing. A transport failure, a body that is not JSON, a body
    without [access_token], a token that is not a string and an [expires_in]
    that is not a number are outside this type: the code then raises other
    exceptions, some of them after the token has been stored. Statements
    about a refresh are made under the hypothesis that the answer is one of
    these two. *)
Inductive http_response : Type :=
| Rejected
| Granted (token : string) (expires_in : option Z).

(** The outside world: [clock k] is what the [k]-th call of
    [datetime.now()] returns, [server k] what the [k]-th POST to the token
    endpoint answers. *)
Record env : Type := mk_env {
  clock : nat -> Z;
  server : nat -> http_response
}.

(** How many clock readings and how many POSTs have happened so far. *)
Record world : Type := mk_world {
  ticks : nat;
  posts : nat
}.

(** Truth value of a string: the empty string is false. *)
Definition truthy (s : string) : bool :=
  match s with
  | EmptyString => false
  | String _ _ => true
  end.

(** Line 169: [self.access_token and self.token_expires_at and
    datetime.now() < self.token_expires_at]. [and] evaluates left to right
    and stops at the first false operand, so the clock is read only when
    both attributes are set. *)
Definition cache_is_fresh (E : env) (self : client) (w : world)
  : bool * world :=
  match access_token self, token_expires_at self with
  | Some tok, Some expires_at =>
      if truthy tok
      then ((clock E (ticks w) <? expires_at)%Z,
            mk_world (S (ticks w)) (posts w))
      else (false, w)
  | _, _ => (false, w)
  end.

(** Lines 172-193: the client-credentials grant. *)
Definition refresh_token (E : env) (self : client) (w : world)
  : result (option string) * client * world :=
  let w1 := mk_world (ticks w) (S (posts w)) in
  match server E (posts w) with
  | Rejected => (Raise HTTPError, self, w1)
  | Granted tok ttl =>
      let expires_in := match ttl with Some s => s | None => 3600%Z end in
      let now := clock E (ticks w1) in
      (Ok (Some tok),
       mk_client (Some tok) (Some (now + (expires_in - 60))%Z),
       mk_world (S (ticks w1)) (posts w1))
  end.

Definition get_access_token (E : env) (self : client) (w : world)
  : result (option string) * client * world :=
  match cache_is_fresh E self w with
  | (true, w1) => (Ok (access_token self), self, w1)
  | (false, w1) => refresh_token E self w1
  end.

(** *** Several callers on one client

    The function takes no lock. Between two attribute accesses the
    interpreter may switch threads, so one call is a sequence of atomic
    steps over the shared client; a thread remembers where it stands. The
    shared state also records, for the stored value and for the stored
    expiry, which POST (which refresh cycle) each came from: these two
    fields are bookkeeping for the statements, the code does not read
    them. *)
Record shared : Type := mk_shared {
  the_client : client;
  value_cycle : option nat;
  expiry_cycle : option nat;
  the_world : world
}.

Inductive pc : Type :=
| AtCheck
| AtReturn (seen_value seen_expiry : option nat)
| AtPost
| AtStoreToken (cycle : nat) (token : string) (expires_in : option Z)
| AtStoreExpiry (cycle : nat) (expires_in : option Z)
| AtReturnFresh
| Returned (seen_value seen_expiry : option nat) (token : option string)
| Failed (e : exn).

(** One atomic step of one thread. A finished thread does not step. *)
Definition step (E : env) (p : pc) (s : shared) : option (pc * shared) :=
  match p with
  | AtCheck =>
      match cache_is_fresh E (the_client s) (the_world s) with
      | (true, w1) =>
          Some (AtReturn (value_cycle s) (expiry_cycle s),
                mk_shared (the_client s) (value_cycle s) (expiry_cycle s) w1)
      | (false, w1) =>
          Some (AtPost,
                mk_shared (the_client s) (value_cycle s) (expiry_cycle s) w1)
      end
  | AtReturn v e =>
      Some (Returned v e (access_token (the_client s)), s)
  | AtPost =>
      let w := the_world s in
      let w1 := mk_world (ticks w) (S (posts w)) in
      let s1 := mk_shared (the_client s) (value_cycle s) (expiry_cycle s) w1 in
      match server E (posts w) with
      | Rejected => Some (Failed HTTPError, s1)
      | Granted tok ttl => Some (AtStoreToken (posts w) tok ttl, s1)
      end
  | AtStoreToken k tok ttl =>
      Some (AtStoreExpiry k ttl,
            mk_shared
              (mk_client (Some tok) (token_expires_at (the_client s)))
              (Some k) (expiry_cycle s) (the_world s))
  | AtStoreExpiry k ttl =>
      let w := the_world s in
      let expires_in := match ttl with Some x => x | None => 3600%Z end in
      let now := clock E (ticks w) in
      Some (AtReturnFresh,
            mk_shared
              (mk_client (access_token (the_client s))
                 (Some (now + (expires_in - 60))%Z))
              (value_cycle s) (Some k)
              (mk_world (S (ticks w)) (posts w)))
  | AtReturnFresh =>
      Some (Returned (value_cycle s) (expiry_cycle s)
              (access_token (the_client s)), s)
  | Returned _ _ _ => None
  | Failed _ => None
  end.

(** The callers and the client they share. *)
Record config : Type := mk_config {
  threads : list pc;
  state : shared
}.

Fixpoint set_nth {A : Type} (i : nat) (x : A) (l : list A) : list A :=
  match l, i with
  | [], _ => []
  | _ :: rest, O => x :: rest
  | y :: rest, S j => y :: set_nth j x rest
  end.

(** Thread [i] takes one step. [None]: there is no such thread, or it has
    finished. *)
Definition step_thread (E : env) (i : nat) (c : config) : option config :=
  match nth_error (threads c) i with
  | None => None
  | Some p =>
      match step E p (state c) with
      | None => None
      | Some (p1, s1) => Some (mk_config (set_nth i p1 (threads c)) s1)
      end
  end.

(** A schedule names the thread that moves at each instant. *)
Fixpoint run (E : env) (schedule : list nat) (c : config) : option config :=
  match schedule with
  | [] => Some c
  | i :: rest =>
      match step_thread E i c with
      | None => None
      | Some c1 => run E rest c1
      end
  end.

(** [n] callers enter [get_access_token] on the same client. *)
Definition callers (n : nat) (self : client) (w : world) : config :=
  mk_config (repeat AtCheck n) (mk_shared self None None w).

(** How many POSTs a thread may still send: one until it has sent it. *)
Definition posts_left (p : pc) : nat :=
  match p with
  | AtCheck | AtPost => 1
  | _ => 0
  end.

Definition posts_ahead (ts : list pc) : nat :=
  fold_right (fun p n => (posts_left p + n)%nat) 0%nat ts.

(** ** Credentials, headers and the listing request *)

(** The three values [__init__] reads from the environment; [os.getenv]
    gives [None] for a variable that is not set. *)
Record credentials : Type := mk_credentials {
  api_key : option string;
  client_id : option string;
  client_secret : option string
}.

(** Truth value of an attribute that is [None] or a string. *)
Definition is_set (v : option string) : bool :=
  match v with
  | Some s => truthy s
  | None => false
  end.

(** Lines 163-165: [all([self.api_key, self.client_id,
    self.client_secret])]. *)
Definition is_configured (c : credentials) : bool :=
  is_set (api_key c) && is_set (client_id c) && is_set (client_secret c).

(** The dictionary of [get_headers]. *)
Record headers : Type := mk_headers {
  Accept : string;
  Content_Type : string;
  Authorization : string;
  Api_key : option string
}.

(** [f'Bearer {token}']: [None] is formatted as the text None. *)
Definition bearer (tok : option string) : string :=
  ("Bearer " ++ match tok with Some t => t | None => "None" end)%string.

(** Lines 195-202. The token is fetched while the dictionary is built. *)
Definition get_headers (c : credentials) (E : env) (self : client)
  (w : world) : result headers * client * world :=
  match get_access_token E self w with
  | (Ok tok, self1, w1) =>
      (Ok (mk_headers "application/json" "application/json" (bearer tok)
             (api_key c)), self1, w1)
  | (Raise e, self1, w1) => (Raise e, self1, w1)
  end.

(** The listing endpoint as the client sees it: for a limit and the headers
    sent, the decoded body, or the exception of [requests.get],
    [raise_for_status] or [response.json]. *)
Definition listing_endpoint : Type := nat -> headers -> result json.

(** Lines 204-223. The headers, and with them the token, are obtained before
    the request is sent; a body that is not a list is answered by the empty
    list. *)
Definition get_freight_proposals (c : credentials) (E : env)
  (listing : listing_endpoint) (limit : nat) (self : client) (w : world)
  : result (list json) * client * world :=
  match get_headers c E self w with
  | (Raise e, self1, w1) => (Raise e, self1, w1)
  | (Ok h, self1, w1) =>
      (data <- listing limit h ;;
       Ok (match data with JList l => l | _ => [] end), self1, w1)
  end.

(** ** The endpoints [/api/freights], [/api/analyze] and [/api/status] *)

(** [len(set(f['route'] for f in freight_data))]. *)
Definition unique_routes (freight_data : list Freight.t) : nat :=
  List.length (nodup string_dec (map Freight.route freight_data)).

(** The [summary] of [/api/freights]: offers, distinct routes, mean price. *)
Record freights_summary : Type := mk_freights_summary {
  offers_total : nat;
  routes_total : nat;
  mean_price : Q
}.

Inductive freights_payload : Type :=
| FreightsNotConfigured
| FreightsListed (freights : list Freight.t) (total_count : nat)
    (summary : freights_summary)
| FreightsError (e : exn).

(** Lines 333-343: the success body, on exact rationals; the code divides
    and rounds floats, so its mean price can differ in the last decimal.
    Only the mean price can raise. *)
Definition freights_body (freight_data : list Freight.t)
  : result freights_payload :=
  mean <- match freight_data with
          | [] => Ok 0
          | _ =>
              prices <- numbers (map Freight.price freight_data) ;;
              q <- truediv (series_sum prices)
                     (inject_Z (Z.of_nat (List.length freight_data))) ;;
              Ok (round 2 q)
          end ;;
  Ok (FreightsListed (firstn 20 freight_data) (List.length freight_data)
        (mk_freights_summary (List.length freight_data)
           (unique_routes freight_data) mean)).

(** Lines 319-349. *)
Definition get_freights (c : credentials) (E : env)
  (listing : listing_endpoint) (self : client) (w : world)
  : freights_payload * client * world :=
  if negb (is_configured c) then (FreightsNotConfigured, self, w)
  else
    match get_freight_proposals c E listing 100 self w with
    | (Raise e, self1, w1) => (FreightsError e, self1, w1)
    | (Ok proposals, self1, w1) =>
        (match (freight_data <- extract_freight_data proposals ;;
                freights_body freight_data) with
         | Ok body => body
         | Raise e => FreightsError e
         end, self1, w1)
    end.

(** The [summary] of [/api/analyze]. *)
Record analysis_summary : Type := mk_analysis_summary {
  analysed_offers : nat;
  analysed_routes : nat;
  opportunities : nat;
  mean_volatility : Q
}.

Inductive analysis_payload : Type :=
| AnalysisNotConfigured
| AnalysisNoData
| AnalysisDone (summary : analysis_summary)
    (arbitrage_opportunities : list Stats.t) (freights : list Freight.t)
| AnalysisError (e : exn).

(** Line 381: the mean volatility of all opportunities, 0 when there is
    none. *)
Definition mean_volatility_of (opps : list Stats.t) : Q :=
  match opps with
  | [] => 0
  | _ =>
      round 3 (series_sum (map Stats.price_volatility opps)
               / inject_Z (Z.of_nat (List.length opps)))
  end.

(** Lines 365-385, on the normalised offers. [None] where the detector is
    outside the model. *)
Definition analysis_body (freight_data : list Freight.t)
  : option analysis_payload :=
  match freight_data with
  | [] => Some AnalysisNoData
  | _ =>
      match detect_arbitrage_opportunities freight_data with
      | None => None
      | Some opps =>
          Some (AnalysisDone
                  (mk_analysis_summary (List.length freight_data)
                     (unique_routes freight_data) (List.length opps)
                     (mean_volatility_of opps))
                  (firstn 10 opps) (firstn 10 freight_data))
      end
  end.

(** Lines 351-391. *)
Definition analyze_arbitrage (c : credentials) (E : env)
  (listing : listing_endpoint) (self : client) (w : world)
  : option analysis_payload * client * world :=
  if negb (is_configured c) then (Some AnalysisNotConfigured, self, w)
  else
    match get_freight_proposals c E listing 200 self w with
    | (Raise e, self1, w1) => (Some (AnalysisError e), self1, w1)
    | (Ok proposals, self1, w1) =>
        (match extract_freight_data proposals with
         | Raise e => Some (AnalysisError e)
         | Ok freight_data => analysis_body freight_data
         end, self1, w1)
    end.

Inductive status_payload : Type :=
| StatusNotConfigured
| StatusReady (has_token : bool) (timestamp : Z)
| StatusError (e : exn).

(** Lines 455-480. The success body reads the clock for its timestamp. *)
Definition api_status (c : credentials) (E : env) (self : client)
  (w : world) : status_payload * client * world :=
  if negb (is_configured c) then (StatusNotConfigured, self, w)
  else
    match get_access_token E self w with
    | (Raise e, self1, w1) => (StatusError e, self1, w1)
    | (Ok token, self1, w1) =>
        (StatusReady (is_set token) (clock E (ticks w1)), self1,
         mk_world (S (ticks w1)) (posts w1))
    end.


(** ** Vocabulary of the statements *)

(** The prices of the rows of a frame that lie on route [r], in frame
    order: the group of [r]. *)
Definition prices_of_route (r : string) (df : DataFrame) : list Q :=
  map snd (filter (fun row => String.eqb (fst row) r) df).

(** The prices filed under key [r] in a list of groups. *)
Fixpoint group_of (r : string) (groups : list (string * list Q)) : list Q :=
  match groups with
  | [] => []
  | (k, ps) :: rest => if String.eqb k r then ps else group_of r rest
  end.

(** The groups are listed by strictly increasing key. *)
Definition keys_sorted (groups : list (string * list Q)) : Prop :=
  StronglySorted String_as_OT.lt (map fst groups).

(** Position of the first record of route [r] in the input. *)
Fixpoint first_seen (r : string) (freight_data : list Freight.t) : nat :=
  match freight_data with
  | [] => O
  | f :: rest =>
      if String.eqb (Freight.route f) r then O else S (first_seen r rest)
  end.

(** Order of two rows of a result: a larger volatility comes first, and of
    two rows with the same volatility the one with the smaller route. *)
Definition ranks_before (a b : Stats.t) : Prop :=
  Stats.price_volatility b < Stats.price_volatility a
  \/ (Stats.price_volatility a == Stats.price_volatility b
      /\ String_as_OT.lt (Stats.route a) (Stats.route b)).

(** A normalised record as the normaliser builds it from an offer that
    carries nothing but two country codes and a price. *)
Definition record_on (origin destination : string) (p : Q) : Freight.t :=
  Freight.mk JNull JNull (JNum p) (JStr "EUR") (JNum 0) (JStr "t")
    origin (JStr "") destination (JStr "")
    (origin ++ "-" ++ destination) (JNum 0).

(** Order of two rows after an ascending sort that keeps equal keys in
    their earlier order [before]. *)
Definition rises (before : Stats.t -> Stats.t -> Prop) (a b : Stats.t)
  : Prop :=
  Stats.price_volatility a < Stats.price_volatility b
  \/ (Stats.price_volatility a == Stats.price_volatility b /\ before a b).

(** Rows of equal volatility stand in the order in which their routes
    first occur in the input. *)
Definition ties_first_seen (freight_data : list Freight.t)
  (out : list Stats.t) : Prop :=
  forall (i j : nat) (a b : Stats.t),
    (i < j)%nat ->
    nth_error out i = Some a -> nth_error out j = Some b ->
    Stats.price_volatility a == Stats.price_volatility b ->
    (first_seen (Stats.route a) freight_data
     < first_seen (Stats.route b) freight_data)%nat.

(** An offer the normaliser can read. A stop is an object whose [place],
    whose [address] and whose [country] are each either missing or of the
    expected shape (object, object, string). *)
Definition readable_stop (s : json) : bool :=
  match s with
  | JDict items =>
      match lookup "place" items with
      | None => true
      | Some (JDict place) =>
          match lookup "address" place with
          | None => true
          | Some (JDict address) =>
              match lookup "country" address with
              | None | Some (JStr _) => true
              | Some _ => false
              end
          | Some _ => false
          end
      | Some _ => false
      end
  | _ => false
  end.

(** The price and the capacity of a freight are each missing or an object
    ([publication] an object whose [price] is missing or an object). *)
Definition readable_amounts (fr : list (string * json)) : bool :=
  match lookup "publication" fr with
  | None => true
  | Some (JDict publication) =>
      match lookup "price" publication with
      | None | Some (JDict _) => true
      | Some _ => false
      end
  | Some _ => false
  end
  &&
  match lookup "capacity" fr with
  | None | Some (JDict _) => true
  | Some _ => false
  end.

(** What [extract_freight_data] guarantees of a record it built. *)
Definition route_derived (r : Freight.t) : Prop :=
  Freight.route r
  = (Freight.loading_country r ++ "-" ++ Freight.unloading_country r)%string
  /\ upper_string (Freight.loading_country r) = Freight.loading_country r
  /\ upper_string (Freight.unloading_country r) = Freight.unloading_country r.

(** A stop in the given country. *)
Definition stop_in (country : string) : json :=
  JDict [("place", JDict [("address", JDict [("country", JStr country)])])].

(** A token is cached and still valid at the next reading of the clock:
    the guard of line 169 in words. *)
Definition cached_and_valid (E : env) (self : client) (w : world)
  (tok : string) : Prop :=
  access_token self = Some tok
  /\ tok <> EmptyString
  /\ exists expires_at : Z,
       token_expires_at self = Some expires_at
       /\ (clock E (ticks w) < expires_at)%Z.

(** The TTL the code uses. *)
Definition ttl_or_default (expires_in : option Z) : Z :=
  match expires_in with
  | Some s => s
  | None => 3600%Z
  end.

(** An offer from [origin] to [destination] that states no price. *)
Definition unpriced_offer (origin destination : string) : json :=
  JDict [("freight",
          JDict [("spots", JList [stop_in origin; stop_in destination])])].

(** A world where it is always second 1000 and the token endpoint grants
    token A for an hour at the first request and token B for two hours at
    every later one. *)
Definition two_grants : env :=
  mk_env (fun _ => 1000%Z)
    (fun k =>
       match k with
       | O => Granted "A" (Some 3600%Z)
       | S _ => Granted "B" (Some 7200%Z)
       end).

(** The value the loop binds to [freight] for an offer, and the offers for
    which that value is an object. *)
Definition freight_of (proposal : json) : json :=
  match proposal with
  | JDict items =>
      match lookup "freight" items with
      | Some v => v
      | None => JDict []
      end
  | _ => JNull
  end.

Definition object_freight (proposal : json) : bool :=
  match freight_of proposal with
  | JDict _ => match proposal with JDict _ => true | _ => false end
  | _ => false
  end.

(** The records one offer contributes: one, or none when it is skipped. *)
Definition records_of (proposal : json) : list Freight.t :=
  match build_record proposal (freight_of proposal) with
  | Ok (Some r) => [r]
  | _ => []
  end.

(** Whether the loop gets through a list of offers. [bound] tells whether
    the variable [freight] already holds an object. An offer that is an
    object must have an object (or nothing) as its [freight]; an offer that
    is not an object is survived only once [freight] is bound. *)
Fixpoint survives (bound : bool) (proposals : list json) : bool :=
  match proposals with
  | [] => true
  | JDict items :: rest => object_freight (JDict items) && survives true rest
  | _ :: rest => bound && survives bound rest
  end.

(** [o.get(k, d)] read as a value: [d] where [o] has no key [k]. *)
Definition dig (o : json) (k : string) (d : json) : json :=
  match o with
  | JDict items => match lookup k items with Some v => v | None => d end
  | _ => d
  end.

(** The address, the upper-cased country and the city of a stop. *)
Definition stop_address (s : json) : json :=
  dig (dig s "place" (JDict [])) "address" (JDict []).

Definition stop_country (s : json) : string :=
  match dig (stop_address s) "country" (JStr "") with
  | JStr c => upper_string c
  | _ => ""
  end.

Definition stop_city (s : json) : json :=
  dig (stop_address s) "locality" (JStr "").

(** The price object and the capacity object of a freight. *)
Definition price_info_of (fr : list (string * json)) : json :=
  dig (dig (JDict fr) "publication" (JDict [])) "price" (JDict []).

Definition capacity_info_of (fr : list (string * json)) : json :=
  dig (JDict fr) "capacity" (JDict []).

(** The record of an offer [p] with freight [fr], loading at stop [s0] and
    unloading at stop [sl], every missing value replaced by its default. *)
Definition record_from (p fr : list (string * json)) (s0 sl : json)
  : Freight.t :=
  Freight.mk
    (dig (JDict fr) "id" JNull)
    (dig (JDict p) "status" JNull)
    (dig (price_info_of fr) "value" (JNum 0))
    (dig (price_info_of fr) "currency" (JStr "EUR"))
    (dig (capacity_info_of fr) "value" (JNum 0))
    (dig (capacity_info_of fr) "unit_code" (JStr "t"))
    (stop_country s0) (stop_city s0)
    (stop_country sl) (stop_city sl)
    (stop_country s0 ++ "-" ++ stop_country sl)
    (dig (JDict fr) "distance" (JNum 0)).

(** A stop in the given country and city. *)
Definition stop_at (country city : string) : json :=
  JDict [("place",
          JDict [("address",
                  JDict [("country", JStr country);
                         ("locality", JStr city)])])].


(** The records the drill-down selects for a requested route code. *)
Definition on_route (route_code : string) (freight_data : list Freight.t)
  : list Freight.t :=
  filter (fun f => String.eqb (Freight.route f) (upper_string route_code))
    freight_data.

(** What [sort_values] on the volatility, descending, promises whatever
    algorithm it runs: the rows it was given, each followed only by rows of
    at most its volatility. *)
Definition volatility_descends (a b : Stats.t) : Prop :=
  Stats.price_volatility b <= Stats.price_volatility a.

Definition sorts_by_volatility
  (sort_values : list Stats.t -> list Stats.t) : Prop :=
  forall l : list Stats.t,
    Permutation l (sort_values l)
    /\ StronglySorted volatility_descends (sort_values l).

(** [detect_arbitrage_opportunities] with the sort left open. *)
Definition detect_with (sort_values : list Stats.t -> list Stats.t)
  (freight_data : list Freight.t) : option (list Stats.t) :=
  match freight_data with
  | [] => Some []
  | _ =>
      match pd_DataFrame freight_data with
      | None => None
      | Some df => Some (sort_values (filter is_arbitrage (route_analysis df)))
      end
  end.

(** The same insertion sort, fed the rows in reverse: it leaves rows of
    equal volatility in the opposite order. *)
Definition sort_values_desc_rev (l : list Stats.t) : list Stats.t :=
  sort_values_desc (rev l).

(** The headers sent with token [tok]. *)
Definition headers_with (c : credentials) (tok : string) : headers :=
  mk_headers "application/json" "application/json" ("Bearer " ++ tok)
    (api_key c).

(** What [get_freight_proposals] makes of the listing's answer. *)
Definition listed (answer : result json) : result (list json) :=
  match answer with
  | Ok (JList l) => Ok l
  | Ok _ => Ok []
  | Raise e => Raise e
  end.

(* ================================================================== *)
(** * Theorems *)
(* ================================================================== *)

(** ** Grouping *)

Lemma compare_Eq_eq (a b : string) :
  String_as_OT.compare a b = Eq -> a = b.
Proof.
  destruct (String_as_OT.compare_spec a b); congruence.
Qed.

Lemma compare_Lt_lt (a b : string) :
  String_as_OT.compare a b = Lt -> String_as_OT.lt a b.
Proof. exact (fun H => H). Qed.

Lemma compare_Gt_lt (a b : string) :
  String_as_OT.compare a b = Gt -> String_as_OT.lt b a.
Proof.
  destruct (String_as_OT.compare_spec a b); congruence.
Qed.

Lemma lt_neq (a b : string) : String_as_OT.lt a b -> a <> b.
Proof.
  intros H ->. exact (StrictOrder_Irreflexive (R := String_as_OT.lt) b H).
Qed.

Lemma group_insert_keys (r : string) (p : Q) groups :
  forall k, In k (map fst (group_insert r p groups)) <->
            k = r \/ In k (map fst groups).
Proof.
  induction groups as [|[k0 ps] rest IH]; intros k; simpl.
  - intuition.
  - destruct (String_as_OT.compare r k0) eqn:C; simpl.
    + apply compare_Eq_eq in C. subst. intuition.
    + intuition.
    + rewrite IH. intuition.
Qed.

Lemma group_insert_sorted (r : string) (p : Q) groups :
  keys_sorted groups -> keys_sorted (group_insert r p groups).
Proof.
  unfold keys_sorted.
  induction groups as [|[k0 ps] rest IH]; simpl; intros S.
  - repeat constructor.
  - apply StronglySorted_inv in S. destruct S as [S F].
    destruct (String_as_OT.compare r k0) eqn:C; simpl.
    + constructor; assumption.
    + constructor.
      * constructor; assumption.
      * constructor; [exact C|].
        eapply Forall_impl; [|exact F].
        intros a Ha. etransitivity; [exact C | exact Ha].
    + constructor; [apply IH; exact S|].
      apply Forall_forall. intros k Hk.
      apply group_insert_keys in Hk. destruct Hk as [->|Hk].
      * apply compare_Gt_lt; exact C.
      * rewrite Forall_forall in F. apply F; exact Hk.
Qed.

Lemma group_of_absent (r : string) groups :
  ~ In r (map fst groups) -> group_of r groups = [].
Proof.
  induction groups as [|[k ps] rest IH]; simpl; intros H; [reflexivity|].
  destruct (String.eqb_spec k r) as [->|N]; [exfalso; auto|].
  apply IH. intros I. apply H. now right.
Qed.

Lemma group_of_insert (r r' : string) (p : Q) groups :
  keys_sorted groups ->
  group_of r (group_insert r' p groups) =
  if String.eqb r' r then group_of r groups ++ [p] else group_of r groups.
Proof.
  unfold keys_sorted.
  induction groups as [|[k0 ps] rest IH]; simpl; intros S.
  - destruct (String.eqb_spec r' r); reflexivity.
  - apply StronglySorted_inv in S. destruct S as [S F].
    destruct (String_as_OT.compare r' k0) eqn:C; simpl.
    + apply compare_Eq_eq in C. subst k0.
      destruct (String.eqb_spec r' r); reflexivity.
    + destruct (String.eqb_spec r' r) as [->|N].
      * destruct (String.eqb_spec k0 r) as [->|N0].
        { exfalso. exact (lt_neq _ _ C eq_refl). }
        rewrite group_of_absent; [reflexivity|].
        intros I. rewrite Forall_forall in F.
        apply (lt_neq r r); [|reflexivity].
        etransitivity; [exact C | apply F; exact I].
      * reflexivity.
    + destruct (String.eqb_spec k0 r) as [->|N0].
      * destruct (String.eqb_spec r' r) as [->|N]; [|reflexivity].
        exfalso. apply compare_Gt_lt in C. exact (lt_neq _ _ C eq_refl).
      * apply IH; exact S.
Qed.

Lemma fold_group_insert_sorted (df : DataFrame) groups :
  keys_sorted groups ->
  keys_sorted
    (fold_left (fun gs row => group_insert (fst row) (snd row) gs) df groups).
Proof.
  revert groups. induction df as [|row df IH]; simpl; intros groups S.
  - exact S.
  - apply IH. apply group_insert_sorted; exact S.
Qed.

Lemma fold_group_insert_group_of (r : string) (df : DataFrame) groups :
  keys_sorted groups ->
  group_of r
    (fold_left (fun gs row => group_insert (fst row) (snd row) gs) df groups)
  = group_of r groups ++ prices_of_route r df.
Proof.
  unfold prices_of_route.
  revert groups. induction df as [|[r' p] df IH]; simpl; intros groups S.
  - now rewrite app_nil_r.
  - rewrite IH by (apply group_insert_sorted; exact S).
    rewrite group_of_insert by exact S.
    destruct (String.eqb r' r); simpl; [now rewrite <- app_assoc|reflexivity].
Qed.

Lemma fold_group_insert_keys (df : DataFrame) groups :
  forall k,
    In k (map fst
      (fold_left (fun gs row => group_insert (fst row) (snd row) gs) df groups))
    <-> In k (map fst df) \/ In k (map fst groups).
Proof.
  revert groups. induction df as [|[r' p] df IH]; simpl; intros groups k.
  - intuition.
  - rewrite IH, group_insert_keys. simpl. intuition.
Qed.

Lemma groupby_route_sorted (df : DataFrame) : keys_sorted (groupby_route df).
Proof. apply fold_group_insert_sorted. constructor. Qed.

Lemma groupby_route_group_of (r : string) (df : DataFrame) :
  group_of r (groupby_route df) = prices_of_route r df.
Proof.
  unfold groupby_route. rewrite fold_group_insert_group_of by constructor.
  reflexivity.
Qed.

Lemma groupby_route_keys (df : DataFrame) (k : string) :
  In k (map fst (groupby_route df)) <-> In k (map fst df).
Proof.
  unfold groupby_route. rewrite fold_group_insert_keys. simpl. intuition.
Qed.

Lemma sorted_group_of_In groups :
  keys_sorted groups ->
  forall k ps, In (k, ps) groups -> group_of k groups = ps.
Proof.
  unfold keys_sorted.
  induction groups as [|[k0 ps0] rest IH]; simpl; intros S k ps I; [easy|].
  apply StronglySorted_inv in S. destruct S as [S F].
  destruct I as [E|I].
  - inversion E; subst. now rewrite String.eqb_refl.
  - destruct (String.eqb_spec k0 k) as [->|N].
    + exfalso. rewrite Forall_forall in F.
      apply (lt_neq k k); [|reflexivity]. apply F.
      apply in_map_iff. exists (k, ps). split; [reflexivity|exact I].
    + apply IH; assumption.
Qed.

Lemma groupby_route_In (df : DataFrame) (k : string) (ps : list Q) :
  In (k, ps) (groupby_route df) -> ps = prices_of_route k df.
Proof.
  intros I. rewrite <- groupby_route_group_of.
  symmetry. apply sorted_group_of_In; [apply groupby_route_sorted|exact I].
Qed.

Lemma groupby_route_complete (df : DataFrame) (r : string) :
  In r (map fst df) -> In (r, prices_of_route r df) (groupby_route df).
Proof.
  intros I. apply groupby_route_keys in I.
  apply in_map_iff in I. destruct I as [[k ps] [E I]]. simpl in E. subst k.
  rewrite <- (groupby_route_In _ _ _ I). exact I.
Qed.


(** ** Sorting *)

Lemma StronglySorted_app' {A : Type} (R : A -> A -> Prop) (l1 l2 : list A) :
  StronglySorted R l1 -> StronglySorted R l2 ->
  (forall x y, In x l1 -> In y l2 -> R x y) ->
  StronglySorted R (l1 ++ l2).
Proof.
  induction l1 as [|a l1 IH]; simpl; intros S1 S2 H; [exact S2|].
  apply StronglySorted_inv in S1. destruct S1 as [S1 F].
  constructor.
  - apply IH; auto.
  - apply Forall_app. split; [exact F|].
    apply Forall_forall. intros y Hy. apply H; auto.
Qed.

Lemma StronglySorted_rev_flip {A : Type} (R : A -> A -> Prop) (l : list A) :
  StronglySorted R l -> StronglySorted (fun a b => R b a) (rev l).
Proof.
  induction 1 as [|a l S IH F]; simpl; [constructor|].
  apply StronglySorted_app'; [exact IH|repeat constructor|].
  intros x y Hx [<-|[]]. apply in_rev in Hx.
  rewrite Forall_forall in F. apply F; exact Hx.
Qed.

Lemma StronglySorted_filter' {A : Type} (R : A -> A -> Prop)
  (f : A -> bool) (l : list A) :
  StronglySorted R l -> StronglySorted R (filter f l).
Proof.
  induction 1 as [|a l S IH F]; simpl; [constructor|].
  destruct (f a); [|exact IH].
  constructor; [exact IH|].
  apply Forall_forall. intros y Hy. apply filter_In in Hy.
  rewrite Forall_forall in F. apply F. tauto.
Qed.

Lemma StronglySorted_map' {A B : Type} (R : B -> B -> Prop)
  (f : A -> B) (l : list A) :
  StronglySorted R (map f l) ->
  StronglySorted (fun a b => R (f a) (f b)) l.
Proof.
  induction l as [|a l IH]; simpl; intros S; [constructor|].
  apply StronglySorted_inv in S. destruct S as [S F].
  constructor; [apply IH; exact S|].
  apply Forall_forall. intros y Hy. rewrite Forall_forall in F.
  apply F. apply in_map. exact Hy.
Qed.

Lemma StronglySorted_weaken {A : Type} (R R' : A -> A -> Prop) :
  (forall a b, R a b -> R' a b) ->
  forall l, StronglySorted R l -> StronglySorted R' l.
Proof.
  intros W l. induction 1 as [|a l S IH F]; constructor; [exact IH|].
  eapply Forall_impl; [|exact F]. intros b. apply W.
Qed.

Lemma insert_asc_perm (x : Stats.t) (l : list Stats.t) :
  Permutation (x :: l) (insert_asc x l).
Proof.
  induction l as [|y l IH]; simpl; [reflexivity|].
  destruct (Qle_bool _ _); [reflexivity|].
  rewrite perm_swap. constructor. exact IH.
Qed.

Lemma argsort_asc_perm (l : list Stats.t) : Permutation l (argsort_asc l).
Proof.
  induction l as [|x l IH]; simpl; [reflexivity|].
  rewrite <- insert_asc_perm. constructor. exact IH.
Qed.

Lemma sort_values_desc_perm (l : list Stats.t) :
  Permutation l (sort_values_desc l).
Proof.
  unfold sort_values_desc.
  rewrite <- Permutation_rev, <- argsort_asc_perm. apply Permutation_rev.
Qed.

Section Stability.

(** [before] is the order in which the rows reach the sort. *)
Variable before : Stats.t -> Stats.t -> Prop.

Let asc := rises before.

Lemma asc_le (a b : Stats.t) :
  asc a b -> Stats.price_volatility a <= Stats.price_volatility b.
Proof.
  unfold asc, rises.
  intros [H|[H _]]; [apply Qlt_le_weak; exact H|rewrite H; apply Qle_refl].
Qed.

Lemma insert_asc_sorted (x : Stats.t) (l : list Stats.t) :
  StronglySorted asc l -> Forall (before x) l ->
  StronglySorted asc (insert_asc x l).
Proof.
  induction 1 as [|y l S IH F]; simpl; intros B.
  - repeat constructor.
  - inversion B as [|? ? Bxy Bl]; subst.
    destruct (Qle_bool (Stats.price_volatility x) (Stats.price_volatility y))
      eqn:C.
    + apply Qle_bool_iff in C.
      assert (Axy : asc x y).
      { destruct (Qle_lt_or_eq _ _ C) as [L|E]; [left; exact L|].
        right. split; assumption. }
      constructor; [constructor; assumption|].
      constructor; [exact Axy|].
      apply Forall_forall. intros z Hz.
      rewrite Forall_forall in F, Bl.
      pose proof (asc_le _ _ (F z Hz)) as Lyz.
      destruct (Qle_lt_or_eq _ _ (Qle_trans _ _ _ C Lyz)) as [L|E].
      * left; exact L.
      * right. split; [exact E|apply Bl; exact Hz].
    + assert (L : Stats.price_volatility y < Stats.price_volatility x).
      { apply Qnot_le_lt. intros H. apply Qle_bool_iff in H. congruence. }
      constructor; [apply IH; exact Bl|].
      apply Forall_forall. intros z Hz.
      apply (Permutation_in _ (Permutation_sym (insert_asc_perm x l))) in Hz.
      destruct Hz as [<-|Hz]; [left; exact L|].
      rewrite Forall_forall in F. apply F; exact Hz.
Qed.

Lemma argsort_asc_sorted (l : list Stats.t) :
  StronglySorted before l -> StronglySorted asc (argsort_asc l).
Proof.
  induction 1 as [|x l S IH F]; simpl; [constructor|].
  apply insert_asc_sorted; [exact IH|].
  apply Forall_forall. intros z Hz.
  apply (Permutation_in _ (Permutation_sym (argsort_asc_perm l))) in Hz.
  rewrite Forall_forall in F. apply F; exact Hz.
Qed.

End Stability.

Lemma sort_values_desc_stable (before : Stats.t -> Stats.t -> Prop)
  (l : list Stats.t) :
  StronglySorted before l ->
  StronglySorted
    (fun a b =>
       Stats.price_volatility b < Stats.price_volatility a
       \/ (Stats.price_volatility b == Stats.price_volatility a
           /\ before a b))
    (sort_values_desc l).
Proof.
  intros S. unfold sort_values_desc.
  apply (StronglySorted_rev_flip
           (fun a b =>
              Stats.price_volatility a < Stats.price_volatility b
              \/ (Stats.price_volatility a == Stats.price_volatility b
                  /\ before b a))).
  apply (argsort_asc_sorted (fun a b => before b a)).
  apply StronglySorted_rev_flip. exact S.
Qed.

Lemma route_analysis_sorted (df : DataFrame) :
  StronglySorted
    (fun a b => String_as_OT.lt (Stats.route a) (Stats.route b))
    (route_analysis df).
Proof.
  unfold route_analysis.
  apply StronglySorted_map'. rewrite map_map. simpl.
  exact (groupby_route_sorted df).
Qed.

(** ** The detector *)

Lemma pd_DataFrame_routes (fd : list Freight.t) (df : DataFrame) :
  pd_DataFrame fd = Some df -> map fst df = map Freight.route fd.
Proof.
  revert df. induction fd as [|f fd IH]; simpl; intros df H.
  - inversion H. reflexivity.
  - destruct (price_column f); [|discriminate].
    destruct (pd_DataFrame fd); [|discriminate].
    inversion H. simpl. f_equal. apply IH. reflexivity.
Qed.

Lemma is_arbitrage_spec (row : Stats.t) :
  is_arbitrage row = true <->
  (2 # 10) < Stats.price_volatility row /\ (2 <= Stats.price_count row)%nat.
Proof.
  unfold is_arbitrage, Qgtb.
  rewrite andb_true_iff, negb_true_iff, Nat.leb_le.
  split; intros [H1 H2]; split; try exact H2.
  - apply Qnot_le_lt. intros L. apply Qle_bool_iff in L. congruence.
  - destruct (Qle_bool _ _) eqn:L; [|reflexivity].
    apply Qle_bool_iff in L. exfalso. exact (Qlt_not_le _ _ H1 L).
Qed.

Lemma detect_unfold (fd : list Freight.t) (df : DataFrame) :
  pd_DataFrame fd = Some df ->
  detect_arbitrage_opportunities fd =
  Some (sort_values_desc (filter is_arbitrage (route_analysis df))).
Proof.
  intros H. destruct fd as [|f fd].
  - inversion H. reflexivity.
  - unfold detect_arbitrage_opportunities. rewrite H. reflexivity.
Qed.

(** C2. The detector returns exactly the analysis rows whose volatility is
    strictly above 0.2 and whose count is at least 2, each once; a row whose
    volatility is exactly 0.2 fails the filter (prices 90 and 110 on one
    route are such a group), a row of count 1 fails it whatever its
    volatility, and the empty input gives the empty result. *)
Theorem detect_filter_exact :
  (forall (fd : list Freight.t) (df : DataFrame),
      pd_DataFrame fd = Some df ->
      exists out : list Stats.t,
        detect_arbitrage_opportunities fd = Some out
        /\ Permutation (filter is_arbitrage (route_analysis df)) out
        /\ forall row : Stats.t,
            In row out <->
            In row (route_analysis df)
            /\ (2 # 10) < Stats.price_volatility row
            /\ (2 <= Stats.price_count row)%nat)
  /\ (forall row : Stats.t,
         Stats.price_volatility row == (2 # 10) -> is_arbitrage row = false)
  /\ (forall row : Stats.t,
         Stats.price_count row = 1%nat -> is_arbitrage row = false)
  /\ route_analysis [("DE-FR", 90); ("DE-FR", 110)]
     = [Stats.mk "DE-FR" 100 90 110 2 (1 # 5)]
  /\ detect_arbitrage_opportunities
       [record_on "DE" "FR" 90; record_on "DE" "FR" 110] = Some []
  /\ detect_arbitrage_opportunities [] = Some [].
Proof.
  split; [|split; [|split; [|repeat split; vm_compute; reflexivity]]].
  - intros fd df Hdf. eexists. split; [apply (detect_unfold _ _ Hdf)|].
    split; [apply sort_values_desc_perm|].
    intros row. rewrite <- is_arbitrage_spec, <- filter_In.
    split; apply Permutation_in;
      [apply Permutation_sym|]; apply sort_values_desc_perm.
  - intros row H. destruct (is_arbitrage row) eqn:A; [|reflexivity].
    apply is_arbitrage_spec in A. destruct A as [A _].
    rewrite H in A. exfalso. exact (Qlt_irrefl _ A).
  - intros row H. destruct (is_arbitrage row) eqn:A; [|reflexivity].
    apply is_arbitrage_spec in A. destruct A as [_ A]. lia.
Qed.

Lemma detect_filter_exact_witness :
  let fd := [record_on "PL" "DE" 80; record_on "ES" "IT" 90;
             record_on "PL" "DE" 100; record_on "PL" "DE" 160;
             record_on "ES" "IT" 95] in
  let df := [("PL-DE", 80); ("ES-IT", 90); ("PL-DE", 100); ("PL-DE", 160);
             ("ES-IT", 95)] in
  pd_DataFrame fd = Some df
  /\ exists out : list Stats.t,
       detect_arbitrage_opportunities fd = Some out
       /\ Permutation (filter is_arbitrage (route_analysis df)) out.
Proof.
  intros fd df. split; [reflexivity|].
  destruct (proj1 detect_filter_exact fd df eq_refl) as [out [H [P _]]].
  exists out. split; assumption.
Defined.

Lemma sort_values_desc_descends (l : list Stats.t) :
  StronglySorted volatility_descends (sort_values_desc l).
Proof.
  assert (T : StronglySorted (fun _ _ : Stats.t => True) l).
  { induction l as [|x l IH]; constructor; [exact IH|].
    apply Forall_forall. intros y _. exact I. }
  pose proof (sort_values_desc_stable _ _ T) as S.
  revert S. apply StronglySorted_weaken.
  intros a b [L|[E _]]; unfold volatility_descends.
  - apply Qlt_le_weak. exact L.
  - rewrite E. apply Qle_refl.
Qed.

Lemma sort_values_desc_meets_contract : sorts_by_volatility sort_values_desc.
Proof.
  intros l. split; [apply sort_values_desc_perm|].
  apply sort_values_desc_descends.
Qed.

Lemma detect_with_unfold (sort_values : list Stats.t -> list Stats.t)
  (fd : list Freight.t) (out : list Stats.t) :
  detect_with sort_values fd = Some out ->
  (fd = [] /\ out = [])
  \/ exists df, pd_DataFrame fd = Some df
                /\ out = sort_values (filter is_arbitrage (route_analysis df)).
Proof.
  destruct fd as [|f fd]; intros H.
  - inversion H. left. split; reflexivity.
  - unfold detect_with in H.
    destruct (pd_DataFrame (f :: fd)) as [df|] eqn:D; [|discriminate].
    inversion H. right. exists df. split; reflexivity.
Qed.

(** C3, as the code has it. Whatever sort [sort_values] runs, as long as it
    returns the rows it was given in non-increasing order of volatility, the
    detector returns the route groups that pass the filter in non-increasing
    order of volatility. The insertion sort of this file is such a sort, and
    with it [detect_with] is [detect_arbitrage_opportunities]; the same sort
    fed the rows in reverse is another, and on two routes of equal
    volatility the two return opposite orders: the code fixes no order among
    equal volatilities. *)
Theorem detect_sorted_by_volatility :
  (forall sort_values : list Stats.t -> list Stats.t,
      sorts_by_volatility sort_values ->
      forall (fd : list Freight.t) (out : list Stats.t),
        detect_with sort_values fd = Some out ->
        StronglySorted volatility_descends out
        /\ forall df : DataFrame,
             pd_DataFrame fd = Some df ->
             Permutation (filter is_arbitrage (route_analysis df)) out)
  /\ sorts_by_volatility sort_values_desc
  /\ sorts_by_volatility sort_values_desc_rev
  /\ (forall fd : list Freight.t,
         detect_with sort_values_desc fd = detect_arbitrage_opportunities fd)
  /\ detect_with sort_values_desc
       [record_on "PL" "DE" 100; record_on "PL" "DE" 150;
        record_on "DE" "FR" 100; record_on "DE" "FR" 150]
     = Some [Stats.mk "DE-FR" 125 100 150 2 (2 # 5);
             Stats.mk "PL-DE" 125 100 150 2 (2 # 5)]
  /\ detect_with sort_values_desc_rev
       [record_on "PL" "DE" 100; record_on "PL" "DE" 150;
        record_on "DE" "FR" 100; record_on "DE" "FR" 150]
     = Some [Stats.mk "PL-DE" 125 100 150 2 (2 # 5);
             Stats.mk "DE-FR" 125 100 150 2 (2 # 5)].
Proof.
  split; [|split; [|split; [|split; [|split]]]].
  - intros sort_values C fd out H.
    destruct (detect_with_unfold _ _ _ H) as [[Ef Eo]|[df [D Eo]]]; subst out.
    + subst fd. split; [constructor|].
      intros df D. inversion D. constructor.
    + destruct (C (filter is_arbitrage (route_analysis df))) as [P S].
      split; [exact S|].
      intros df' D'. rewrite D in D'. inversion D'. subst df'. exact P.
  - exact sort_values_desc_meets_contract.
  - intros l. unfold sort_values_desc_rev. split.
    + rewrite <- sort_values_desc_perm. apply Permutation_rev.
    + apply sort_values_desc_descends.
  - intros fd. reflexivity.
  - vm_compute. reflexivity.
  - vm_compute. reflexivity.
Qed.

Lemma detect_sorted_by_volatility_witness :
  let fd := [record_on "PL" "DE" 100; record_on "PL" "DE" 150;
             record_on "ES" "IT" 10; record_on "ES" "IT" 90;
             record_on "DE" "FR" 100; record_on "DE" "FR" 150] in
  exists out : list Stats.t,
    sorts_by_volatility sort_values_desc
    /\ detect_with sort_values_desc fd = Some out
    /\ StronglySorted volatility_descends out.
Proof.
  intros fd.
  destruct (detect_with sort_values_desc fd) as [out|] eqn:H;
    [|vm_compute in H; discriminate].
  exists out.
  pose proof detect_sorted_by_volatility as [A [C _]].
  split; [exact C|]. split; [reflexivity|].
  exact (proj1 (A sort_values_desc C fd out H)).
Defined.

(** C3, as the claim has it, fails: PL-DE is seen first, DE-FR second, both
    have volatility 0.4, and DE-FR is returned first. *)
Lemma detect_ties_not_first_seen :
  let fd := [record_on "PL" "DE" 100; record_on "PL" "DE" 150;
             record_on "DE" "FR" 100; record_on "DE" "FR" 150] in
  let out := [Stats.mk "DE-FR" 125 100 150 2 (2 # 5);
              Stats.mk "PL-DE" 125 100 150 2 (2 # 5)] in
  detect_arbitrage_opportunities fd = Some out
  /\ ~ ties_first_seen fd out.
Proof.
  intros fd out. split; [vm_compute; reflexivity|].
  intros T.
  specialize (T 0%nat 1%nat _ _ (Nat.lt_0_succ 0) eq_refl eq_refl
                (Qeq_refl _)).
  vm_compute in T. lia.
Qed.

(** ** The normaliser *)

Lemma bind_Ok {A B : Type} (m : result A) (k : A -> result B) (b : B) :
  (x <- m ;; k x) = Ok b -> exists a, m = Ok a /\ k a = Ok b.
Proof.
  destruct m as [a|e]; simpl; intros H; [|discriminate].
  exists a. split; [reflexivity|exact H].
Qed.

Ltac bind_inv H :=
  let a := fresh "v" in
  let E := fresh "E" in
  apply bind_Ok in H; destruct H as [a [E H]].

Lemma upper_ascii_idem (c : ascii) :
  upper_ascii (upper_ascii c) = upper_ascii c.
Proof.
  destruct c as [[] [] [] [] [] [] [] []]; reflexivity.
Qed.

Lemma upper_string_idem (s : string) :
  upper_string (upper_string s) = upper_string s.
Proof.
  induction s as [|c s IH]; simpl; [reflexivity|].
  now rewrite upper_ascii_idem, IH.
Qed.

Lemma upper_Ok (o : json) (s : string) :
  upper o = Ok s -> upper_string s = s.
Proof.
  destruct o; simpl; intros H; try discriminate.
  inversion H. apply upper_string_idem.
Qed.

Lemma build_record_route (proposal fr : json) (r : Freight.t) :
  build_record proposal fr = Ok (Some r) -> route_derived r.
Proof.
  unfold build_record. intros H.
  do 11 bind_inv H.
  destruct (2 <=? v9)%nat; [|discriminate].
  do 13 bind_inv H.
  inversion H. subst r. unfold route_derived. simpl.
  split; [reflexivity|]. split; eapply upper_Ok; eassumption.
Qed.

Lemma try_block_data (proposal : json) (st st1 : locals) (o : result unit) :
  try_block proposal st = (st1, o) ->
  freight_data st1 = freight_data st
  \/ exists r, build_record proposal
                 (match freight st1 with Some fr => fr | None => JNull end)
               = Ok (Some r)
               /\ freight_data st1 = freight_data st ++ [r].
Proof.
  unfold try_block.
  destruct (get proposal "freight" (JDict [])) as [fr|e].
  - destruct (build_record proposal fr) as [[r|]|e] eqn:B;
      intros H; inversion H; subst; simpl; auto.
    right. exists r. split; [exact B|reflexivity].
  - intros H; inversion H; subst. auto.
Qed.

Lemma except_block_data (e : exn) (st st1 : locals) :
  except_block e st = Ok st1 -> freight_data st1 = freight_data st.
Proof.
  unfold except_block. destruct (freight st); [|discriminate].
  intros H. bind_inv H. inversion H. reflexivity.
Qed.

Lemma for_proposals_invariant (P : Freight.t -> Prop) (proposals : list json) :
  forall st st1,
    for_proposals proposals st = Ok st1 ->
    Forall P (freight_data st) ->
    (forall proposal fr r, build_record proposal fr = Ok (Some r) -> P r) ->
    Forall P (freight_data st1).
Proof.
  induction proposals as [|p rest IH]; simpl; intros st st1 H F B.
  - inversion H. subst. exact F.
  - destruct (try_block p st) as [sa o] eqn:T.
    assert (Fa : Forall P (freight_data sa)).
    { destruct (try_block_data _ _ _ _ T) as [E|[r [Hr E]]]; rewrite E.
      - exact F.
      - apply Forall_app. split; [exact F|].
        constructor; [|constructor]. eapply B; exact Hr. }
    destruct o as [u|e].
    + eapply IH; eassumption.
    + bind_inv H. eapply IH; [exact H| |exact B].
      rewrite (except_block_data _ _ _ E). exact Fa.
Qed.

(** C7. Every record the normaliser returns has its route equal to its
    loading country, a hyphen, and its unloading country, and both country
    codes are in upper case; an offer loading in "DE" and unloading in "fr"
    is normalised to route "DE-FR". *)
Theorem extract_route_derived :
  (forall (proposals : list json) (out : list Freight.t),
      extract_freight_data proposals = Ok out ->
      Forall route_derived out)
  /\ exists r : Freight.t,
      extract_freight_data
        [JDict [("freight", JDict [("spots",
                                    JList [stop_in "DE"; stop_in "fr"])])]]
      = Ok [r]
      /\ Freight.loading_country r = "DE"
      /\ Freight.unloading_country r = "FR"
      /\ Freight.route r = "DE-FR".
Proof.
  split.
  - intros proposals out H. unfold extract_freight_data in H.
    bind_inv H. inversion H. subst out.
    eapply for_proposals_invariant; [exact E|constructor|].
    intros p fr r. apply build_record_route.
  - eexists. split; [vm_compute; reflexivity|]. repeat split.
Qed.

Lemma extract_route_derived_witness :
  let proposals :=
    [JDict [("freight", JDict [("spots",
                                JList [stop_in "pl"; stop_in "de"])])]] in
  let out := [record_on "PL" "DE" 0] in
  extract_freight_data proposals = Ok out /\ Forall route_derived out.
Proof.
  intros proposals out.
  assert (H : extract_freight_data proposals = Ok out)
    by (vm_compute; reflexivity).
  split; [exact H|exact (proj1 extract_route_derived proposals out H)].
Defined.

(** C6, at the failing input. An offer whose [freight] is null raises
    inside the [try] block; the handler then formats
    [freight.get('id', 'unknown')] on the same null and raises again, out of
    the function: the call fails as a whole, and the record of a well-formed
    offer processed before it is lost with it. An offer whose [publication]
    is null, by contrast, is skipped and the rest is kept. *)
Theorem extract_handler_raises :
  extract_freight_data [JDict [("freight", JNull)]] = Raise AttributeError
  /\ extract_freight_data
       [JDict [("freight", JDict [("spots",
                                   JList [stop_in "DE"; stop_in "FR"])])];
        JDict [("freight", JNull)]]
     = Raise AttributeError
  /\ extract_freight_data
       [JDict [("freight", JDict [("publication", JNull)])];
        JDict [("freight", JDict [("spots",
                                   JList [stop_in "DE"; stop_in "FR"])])]]
     = Ok [record_on "DE" "FR" 0].
Proof.
  repeat split; vm_compute; reflexivity.
Qed.

Lemma for_proposals_app (l1 l2 : list json) :
  forall st,
    for_proposals (l1 ++ l2) st
    = (st1 <- for_proposals l1 st ;; for_proposals l2 st1).
Proof.
  induction l1 as [|p l1 IH]; simpl; intros st; [reflexivity|].
  destruct (try_block p st) as [sa [u|e]]; [apply IH|].
  destruct (except_block e sa) as [sb|e']; simpl; [apply IH|reflexivity].
Qed.

Lemma for_proposals_grows (l : list json) :
  forall st st1,
    for_proposals l st = Ok st1 ->
    exists added, freight_data st1 = freight_data st ++ added.
Proof.
  induction l as [|p l IH]; simpl; intros st st1 H.
  - inversion H. exists []. now rewrite app_nil_r.
  - destruct (try_block p st) as [sa o] eqn:T.
    assert (G : exists added, freight_data sa = freight_data st ++ added).
    { destruct (try_block_data _ _ _ _ T) as [E|[r [_ E]]]; rewrite E.
      - exists []. now rewrite app_nil_r.
      - exists [r]. reflexivity. }
    destruct G as [a1 G].
    destruct o as [u|e].
    + destruct (IH _ _ H) as [a2 G2]. exists (a1 ++ a2).
      now rewrite G2, G, app_assoc.
    + bind_inv H. destruct (IH _ _ H) as [a2 G2]. exists (a1 ++ a2).
      now rewrite G2, (except_block_data _ _ _ E), G, app_assoc.
Qed.

Lemma last_of_list (s0 sl : json) (mid : list json) :
  last (JList (s0 :: mid ++ [sl])) = Ok sl.
Proof.
  unfold last. replace (s0 :: mid ++ [sl]) with ((s0 :: mid) ++ [sl])
    by reflexivity.
  rewrite rev_app_distr. reflexivity.
Qed.

Lemma len_of_list (s0 sl : json) (mid : list json) :
  exists n, len (JList (s0 :: mid ++ [sl])) = Ok n /\ (2 <=? n)%nat = true.
Proof.
  eexists. split; [reflexivity|].
  apply Nat.leb_le. simpl. rewrite length_app. simpl. lia.
Qed.

(** What the six statements on one stop (lines 252-255 and 258-261) compute
    on a readable stop, whatever follows them. *)
Lemma readable_stop_address (s : json) :
  readable_stop s = true ->
  exists (country : string) (city : json),
    forall (A : Type) (k : string -> json -> result A),
      (place <- get s "place" (JDict []) ;;
       address <- get place "address" (JDict []) ;;
       code <- get address "country" (JStr "") ;;
       country <- upper code ;;
       city <- get address "locality" (JStr "") ;;
       k country city)
      = k country city.
Proof.
  unfold readable_stop. intros H.
  destruct s as [| | | | |items]; try discriminate. simpl.
  destruct (lookup "place" items) as [[| | | | |place]|]; try discriminate;
    simpl.
  - destruct (lookup "address" place) as [[| | | | |address]|];
      try discriminate; simpl.
    + destruct (lookup "country" address) as [[| | |c| |]|];
        try discriminate; simpl; do 2 eexists; intros; reflexivity.
    + do 2 eexists; intros; reflexivity.
  - do 2 eexists; intros; reflexivity.
Qed.

Lemma build_record_defaults (p fr : list (string * json)) (s0 sl : json)
  (mid : list json) :
  lookup "spots" fr = Some (JList (s0 :: mid ++ [sl])) ->
  readable_stop s0 = true -> readable_stop sl = true ->
  readable_amounts fr = true ->
  exists r : Freight.t,
    build_record (JDict p) (JDict fr) = Ok (Some r)
    /\ Freight.freight_id r
       = match lookup "id" fr with Some v => v | None => JNull end
    /\ Freight.status r
       = match lookup "status" p with Some v => v | None => JNull end
    /\ Freight.distance_km r
       = match lookup "distance" fr with Some v => v | None => JNum 0 end.
Proof.
  intros Hspots H0 Hl Ham.
  destruct (readable_stop_address _ H0) as [c0 [city0 K0]].
  destruct (readable_stop_address _ Hl) as [cl [cityl Kl]].
  destruct (len_of_list s0 sl mid) as [n [Hn Hn2]].
  unfold readable_amounts in Ham. apply andb_true_iff in Ham.
  destruct Ham as [Hpub Hcap].
  unfold build_record.
  assert (Hget : get (JDict fr) "spots" (JList [])
                 = Ok (JList (s0 :: mid ++ [sl]))).
  { unfold get. rewrite Hspots. reflexivity. }
  assert (Hpre :
    forall (A : Type) (k : json -> json -> json -> json -> result A),
    exists price currency capacity unit,
      (publication <- get (JDict fr) "publication" (JDict []) ;;
       price_info <- get publication "price" (JDict []) ;;
       price <- get price_info "value" (JNum 0) ;;
       currency <- get price_info "currency" (JStr "EUR") ;;
       capacity_info <- get (JDict fr) "capacity" (JDict []) ;;
       capacity <- get capacity_info "value" (JNum 0) ;;
       capacity_unit <- get capacity_info "unit_code" (JStr "t") ;;
       k price currency capacity capacity_unit)
      = k price currency capacity unit).
  { intros A k. simpl.
    destruct (lookup "publication" fr) as [[| | | | |pub]|];
      try discriminate; simpl;
      [destruct (lookup "price" pub) as [[| | | | |pr]|];
       try discriminate; simpl|];
      (destruct (lookup "capacity" fr) as [[| | | | |cap]|];
       try discriminate; simpl; do 4 eexists; reflexivity). }
  simpl (get (JDict fr) "id" JNull). simpl (get (JDict p) "status" JNull).
  cbn [bind].
  destruct (Hpre (option Freight.t)
    (fun price currency capacity capacity_unit =>
       spots <- get (JDict fr) "spots" (JList []) ;;
       n <- len spots ;;
       if (2 <=? n)%nat then
         loading_spot <- first spots ;;
         loading_place <- get loading_spot "place" (JDict []) ;;
         loading_address <- get loading_place "address" (JDict []) ;;
         loading_code <- get loading_address "country" (JStr "") ;;
         loading_country <- upper loading_code ;;
         loading_city <- get loading_address "locality" (JStr "") ;;
         unloading_spot <- last spots ;;
         unloading_place <- get unloading_spot "place" (JDict []) ;;
         unloading_address <- get unloading_place "address" (JDict []) ;;
         unloading_code <- get unloading_address "country" (JStr "") ;;
         unloading_country <- upper unloading_code ;;
         unloading_city <- get unloading_address "locality" (JStr "") ;;
         distance <- get (JDict fr) "distance" (JNum 0) ;;
         Ok (Some (Freight.mk
                     match lookup "id" fr with Some v => v | None => JNull end
                     match lookup "status" p with
                     | Some v => v | None => JNull end
                     price currency capacity
                     capacity_unit loading_country loading_city
                     unloading_country unloading_city
                     (loading_country ++ "-" ++ unloading_country)
                     distance))
       else Ok None))
    as [price [currency [capacity [unit E]]]].
  rewrite E. clear E Hpre.
  rewrite Hget. cbn [bind]. rewrite Hn. cbn [bind]. rewrite Hn2.
  cbn [first bind]. rewrite K0.
  rewrite last_of_list. cbn [bind]. rewrite Kl.
  eexists. split; [reflexivity|]. simpl. repeat split.
Qed.

Lemma try_block_appends (p fr : list (string * json)) (r : Freight.t)
  (st : locals) :
  lookup "freight" p = Some (JDict fr) ->
  build_record (JDict p) (JDict fr) = Ok (Some r) ->
  try_block (JDict p) st
  = (mk_locals (Some (JDict fr)) (freight_data st ++ [r]) (stdout st), Ok tt).
Proof.
  intros Hf Hb. unfold try_block, get. rewrite Hf, Hb. reflexivity.
Qed.

(** C10, as the code has it. An offer whose freight is an object that lists
    at least two stops, whose first and last stop are readable (an object
    whose [place], [address] and [country] are each missing or an object, an
    object and a string) and whose price and capacity are missing or
    objects, is normalised to a record,
    alone or among other offers; where the freight has no [distance] the
    record's [distance_km] is 0, where it has no [id] the record's
    [freight_id] is null, and where the offer has no [status] the record's
    [status] is null. *)
Theorem extract_defaults_when_absent :
  forall (p fr : list (string * json)) (s0 sl : json) (mid : list json),
    lookup "freight" p = Some (JDict fr) ->
    lookup "spots" fr = Some (JList (s0 :: mid ++ [sl])) ->
    readable_stop s0 = true ->
    readable_stop sl = true ->
    readable_amounts fr = true ->
    exists r : Freight.t,
      extract_freight_data [JDict p] = Ok [r]
      /\ (forall (l1 l2 : list json) (out : list Freight.t),
             extract_freight_data (l1 ++ JDict p :: l2) = Ok out ->
             In r out)
      /\ (lookup "distance" fr = None -> Freight.distance_km r = JNum 0)
      /\ (lookup "id" fr = None -> Freight.freight_id r = JNull)
      /\ (lookup "status" p = None -> Freight.status r = JNull).
Proof.
  intros p fr s0 sl mid Hf Hs H0 Hl Ha.
  destruct (build_record_defaults p fr s0 sl mid Hs H0 Hl Ha)
    as [r [Hb [Hid [Hst Hd]]]].
  exists r. split; [|split].
  - unfold extract_freight_data. simpl.
    rewrite (try_block_appends p fr r _ Hf Hb). reflexivity.
  - intros l1 l2 out H. unfold extract_freight_data in H.
    bind_inv H. inversion H. subst out. clear H.
    rewrite for_proposals_app in E. bind_inv E. simpl in E.
    rewrite (try_block_appends p fr r _ Hf Hb) in E.
    apply for_proposals_grows in E. destruct E as [added E].
    rewrite E. simpl. apply in_or_app. left. apply in_or_app. right.
    left. reflexivity.
  - repeat split; intros N.
    + rewrite Hd, N. reflexivity.
    + rewrite Hid, N. reflexivity.
    + rewrite Hst, N. reflexivity.
Qed.

Lemma extract_defaults_when_absent_witness :
  let fr := [("spots", JList [stop_in "DE"; JDict []; stop_in "fr"])] in
  let p := [("freight", JDict fr)] in
  exists r : Freight.t,
    extract_freight_data [JDict p] = Ok [r]
    /\ Freight.distance_km r = JNum 0
    /\ Freight.freight_id r = JNull
    /\ Freight.status r = JNull.
Proof.
  intros fr p.
  destruct (extract_defaults_when_absent p fr (stop_in "DE") (stop_in "fr")
              [JDict []] eq_refl eq_refl eq_refl eq_refl eq_refl)
    as [r [H [_ [Hd [Hi Hs]]]]].
  exists r. split; [exact H|].
  split; [exact (Hd eq_refl)|]. split; [exact (Hi eq_refl)|exact (Hs eq_refl)].
Defined.

(** C10, as the claim has it, fails. The offer below has two stops and
    neither id, status nor distance, but the [place] of its first stop is
    null: reading the address raises, the exception is caught, and the offer
    is skipped instead of being normalised with defaults. *)
Lemma extract_skips_two_stops_with_null_place :
  let spots := JList [JDict [("place", JNull)]; stop_in "FR"] in
  let offer := JDict [("freight", JDict [("spots", spots)])] in
  len spots = Ok 2%nat
  /\ extract_freight_data [offer] = Ok []
  /\ extract_freight_data [unpriced_offer "PL" "DE"; offer]
     = Ok [record_on "PL" "DE" 0].
Proof.
  repeat split; vm_compute; reflexivity.
Qed.

(** ** The single-route endpoint *)

Lemma numbers_length (prices : list json) (qs : list Q) :
  numbers prices = Ok qs -> List.length qs = List.length prices.
Proof.
  revert qs. induction prices as [|p prices IH]; simpl; intros qs H.
  - inversion H. reflexivity.
  - destruct (number p); [|discriminate].
    bind_inv H. inversion H. simpl. f_equal. apply IH. exact E.
Qed.

(** Whatever the matching records, a zero sum of their prices ends the
    statistics in a division by zero. *)
Lemma statistics_of_zero_sum (route_freights : list Freight.t)
  (prices : list Q) :
  route_freights <> [] ->
  numbers (map Freight.price route_freights) = Ok prices ->
  series_sum prices == 0 ->
  statistics_of route_freights = Raise ZeroDivisionError.
Proof.
  intros Hne Hn Hs. unfold statistics_of. rewrite Hn. cbn [bind].
  assert (Hlen : (0 < Z.of_nat (List.length prices))%Z).
  { rewrite (numbers_length _ _ Hn), length_map.
    destruct route_freights; [congruence|simpl; lia]. }
  unfold truediv at 1.
  assert (Hnz : Qeq_bool (inject_Z (Z.of_nat (List.length prices))) 0 = false).
  { destruct (Qeq_bool _ 0) eqn:B; [|reflexivity].
    apply Qeq_bool_iff in B. unfold Qeq in B. simpl in B. lia. }
  rewrite Hnz. cbn [bind]. unfold truediv at 1. rewrite Hnz. cbn [bind].
  unfold truediv.
  assert (Hz : Qeq_bool
                 (series_sum prices
                  / inject_Z (Z.of_nat (List.length prices))) 0 = true).
  { apply Qeq_bool_iff. rewrite Hs. unfold Qdiv. apply Qmult_0_l. }
  rewrite Hz. reflexivity.
Qed.

(** C8, at the failing input. The detector replaces a zero mean by 1: two
    offers at price 0 on one route give volatility 0. The drill-down on the
    same two offers divides by the mean itself: the division raises, and the
    endpoint answers with its error payload. *)
Theorem route_details_divides_by_zero_mean :
  route_analysis [("DE-FR", 0); ("DE-FR", 0)] = [Stats.mk "DE-FR" 0 0 0 2 0]
  /\ statistics_of [record_on "DE" "FR" 0; record_on "DE" "FR" 0]
     = Raise ZeroDivisionError
  /\ get_route_details true
       (Ok [unpriced_offer "DE" "FR"; unpriced_offer "DE" "FR"]) "DE-FR"
     = EndpointError ZeroDivisionError.
Proof.
  repeat split; vm_compute; reflexivity.
Qed.

(** C9, at the failing input. One record matches the upper-cased route code
    and its price is 0: the endpoint answers with its error payload, not
    with the route's statistics. A route that no record matches is answered
    with the not-found payload, and a matched route of non-zero mean with its
    statistics. *)
Theorem route_details_match_without_statistics :
  filter (fun f => String.eqb (Freight.route f) (upper_string "de-fr"))
    [record_on "DE" "FR" 0; record_on "PL" "DE" 80]
  = [record_on "DE" "FR" 0]
  /\ route_details [record_on "DE" "FR" 0; record_on "PL" "DE" 80] "de-fr"
     = Raise ZeroDivisionError
  /\ get_route_details true
       (Ok [unpriced_offer "DE" "FR"; unpriced_offer "PL" "DE"]) "de-fr"
     = EndpointError ZeroDivisionError
  /\ route_details [record_on "DE" "FR" 0; record_on "PL" "DE" 80] "es-it"
     = Ok (RouteNotFound "es-it")
  /\ route_details [record_on "DE" "FR" 0; record_on "PL" "DE" 80;
                    record_on "PL" "DE" 160] "pl-de"
     = Ok (RouteDetails "PL-DE"
             [record_on "PL" "DE" 80; record_on "PL" "DE" 160]
             (mk_route_statistics 2 80 160 120 (160 - 80) (667 # 1000))).
Proof.
  repeat split; vm_compute; reflexivity.
Qed.

(** ** The token cache, one caller *)

Lemma truthy_nonempty (s : string) : truthy s = true <-> s <> EmptyString.
Proof.
  destruct s; simpl; split; congruence.
Qed.

Lemma cache_is_fresh_true (E : env) (self : client) (w : world) :
  fst (cache_is_fresh E self w) = true <->
  exists tok, cached_and_valid E self w tok.
Proof.
  unfold cache_is_fresh, cached_and_valid.
  destruct (access_token self) as [tok|];
    [destruct (token_expires_at self) as [exp|]|].
  - destruct (truthy tok) eqn:T; simpl.
    + rewrite Z.ltb_lt. split.
      * intros L. exists tok. split; [reflexivity|].
        split; [apply truthy_nonempty; exact T|].
        exists exp. split; [reflexivity|exact L].
      * intros [t [_ [_ [x [Hx L]]]]]. inversion Hx. subst. exact L.
    + split; [discriminate|].
      intros [t [Ht [N _]]]. inversion Ht. subst.
      apply truthy_nonempty in N. congruence.
  - simpl. split; [discriminate|].
    intros [t [_ [_ [x [Hx _]]]]]. discriminate.
  - simpl. split; [discriminate|]. intros [t [Ht _]]. discriminate.
Qed.

Lemma cache_is_fresh_posts (E : env) (self : client) (w : world) :
  posts (snd (cache_is_fresh E self w)) = posts w.
Proof.
  unfold cache_is_fresh.
  destruct (access_token self); [|reflexivity].
  destruct (token_expires_at self); [|reflexivity].
  destruct (truthy _); reflexivity.
Qed.

(** C4, as the code has it. A cached token that is not the empty string is
    returned, client untouched and no POST sent, whenever the clock reads
    strictly less than the cached expiry. In every other case the function
    sends one POST, and on a grant it stores the granted token with an
    expiry of the clock's reading at that moment plus the granted TTL (3600
    when the response has none) minus 60, and returns the granted token. *)
Theorem get_access_token_cached_or_refreshed :
  forall (E : env) (self : client) (w : world),
    (forall tok : string,
        cached_and_valid E self w tok ->
        exists w1 : world,
          get_access_token E self w = (Ok (Some tok), self, w1)
          /\ posts w1 = posts w)
    /\ ((forall tok : string, ~ cached_and_valid E self w tok) ->
        forall (tok : string) (expires_in : option Z),
          server E (posts w) = Granted tok expires_in ->
          exists (now : Z) (w1 : world),
            get_access_token E self w
            = (Ok (Some tok),
               mk_client (Some tok)
                 (Some (now + (ttl_or_default expires_in - 60))%Z),
               w1)
            /\ posts w1 = S (posts w)
            /\ now = clock E (pred (ticks w1))).
Proof.
  intros E self w. split.
  - intros tok V.
    assert (F : fst (cache_is_fresh E self w) = true)
      by (apply cache_is_fresh_true; exists tok; exact V).
    pose proof (cache_is_fresh_posts E self w) as P.
    unfold get_access_token.
    destruct (cache_is_fresh E self w) as [b w1]. simpl in F, P. subst b.
    exists w1. destruct V as [Ht _]. rewrite Ht. split; [reflexivity|exact P].
  - intros NV tok ttl G.
    assert (F : fst (cache_is_fresh E self w) = false).
    { destruct (fst (cache_is_fresh E self w)) eqn:B; [|reflexivity].
      apply cache_is_fresh_true in B. destruct B as [t V].
      exfalso. exact (NV t V). }
    pose proof (cache_is_fresh_posts E self w) as P.
    unfold get_access_token.
    destruct (cache_is_fresh E self w) as [b w1]. simpl in F, P. subst b.
    unfold refresh_token. rewrite P, G. simpl.
    do 2 eexists. split; [reflexivity|]. split; reflexivity.
Qed.

Lemma get_access_token_cached_or_refreshed_witness :
  let E := two_grants in
  let w := mk_world 0 0 in
  (let self := mk_client (Some "A") (Some 4540%Z) in
   cached_and_valid E self w "A"
   /\ exists w1, get_access_token E self w = (Ok (Some "A"), self, w1)
                 /\ posts w1 = 0%nat)
  /\ (let self := mk_client (Some "old") (Some 1000%Z) in
      (forall tok, ~ cached_and_valid E self w tok)
      /\ exists now w1,
          get_access_token E self w
          = (Ok (Some "A"),
             mk_client (Some "A")
               (Some (now + (ttl_or_default (Some 3600%Z) - 60))%Z), w1)
          /\ posts w1 = 1%nat
          /\ now = clock E (pred (ticks w1))).
Proof.
  intros E w. split.
  - intros self.
    assert (V : cached_and_valid E self w "A").
    { split; [reflexivity|]. split; [discriminate|].
      exists 4540%Z. split; [reflexivity|]. simpl. lia. }
    split; [exact V|].
    exact (proj1 (get_access_token_cached_or_refreshed E self w) "A" V).
  - intros self.
    assert (NV : forall tok, ~ cached_and_valid E self w tok).
    { intros tok [_ [_ [x [Hx L]]]]. inversion Hx. subst x. simpl in L. lia. }
    split; [exact NV|].
    exact (proj2 (get_access_token_cached_or_refreshed E self w) NV
             "A" (Some 3600%Z) eq_refl).
Defined.

(** C4, as the claim has it, fails: the cached token is the empty string,
    the clock reads 1000 and the cached expiry is 4540, yet the function
    sends a POST and replaces the token. *)
Lemma get_access_token_empty_token_refreshes :
  let self := mk_client (Some "") (Some 4540%Z) in
  let w := mk_world 0 0 in
  (clock two_grants (ticks w) < 4540)%Z
  /\ get_access_token two_grants self w
     = (Ok (Some "A"), mk_client (Some "A") (Some 4540%Z), mk_world 1 1).
Proof.
  split; [simpl; lia|vm_compute; reflexivity].
Qed.

(** ** The token cache, several callers *)

Lemma step_posts (E : env) (p p1 : pc) (s s1 : shared) :
  step E p s = Some (p1, s1) ->
  (posts (the_world s1) + posts_left p1
   <= posts (the_world s) + posts_left p)%nat.
Proof.
  destruct p; simpl; intros H; try discriminate.
  - pose proof (cache_is_fresh_posts E (the_client s) (the_world s)) as P.
    destruct (cache_is_fresh E (the_client s) (the_world s)) as [[] w1];
      inversion H; subst; simpl in *; lia.
  - inversion H; subst; simpl; lia.
  - destruct (server E (posts (the_world s))); inversion H; subst; simpl; lia.
  - inversion H; subst; simpl; lia.
  - inversion H; subst; simpl; lia.
  - inversion H; subst; simpl; lia.
Qed.

Lemma posts_ahead_set_nth (ts : list pc) :
  forall (i : nat) (p p1 : pc),
    nth_error ts i = Some p ->
    (posts_ahead (set_nth i p1 ts) + posts_left p
     = posts_ahead ts + posts_left p1)%nat.
Proof.
  induction ts as [|t ts IH]; intros [|i] p p1 H; simpl in H;
    try discriminate.
  - inversion H. subst. simpl. lia.
  - simpl. specialize (IH i p p1 H). lia.
Qed.

Lemma step_thread_posts (E : env) (i : nat) (c c1 : config) :
  step_thread E i c = Some c1 ->
  (posts (the_world (state c1)) + posts_ahead (threads c1)
   <= posts (the_world (state c)) + posts_ahead (threads c))%nat.
Proof.
  unfold step_thread.
  destruct (nth_error (threads c) i) as [p|] eqn:N; [|discriminate].
  destruct (step E p (state c)) as [[p1 s1]|] eqn:S; [|discriminate].
  intros H. inversion H. subst. simpl.
  pose proof (step_posts _ _ _ _ _ S).
  pose proof (posts_ahead_set_nth _ _ _ p1 N). lia.
Qed.

Lemma run_posts (E : env) (schedule : list nat) :
  forall c c1 : config,
    run E schedule c = Some c1 ->
    (posts (the_world (state c1)) + posts_ahead (threads c1)
     <= posts (the_world (state c)) + posts_ahead (threads c))%nat.
Proof.
  induction schedule as [|i rest IH]; simpl; intros c c1 H.
  - inversion H. lia.
  - destruct (step_thread E i c) as [c'|] eqn:S; [|discriminate].
    pose proof (step_thread_posts _ _ _ _ S). specialize (IH _ _ H). lia.
Qed.

Lemma step_thread_alone (E : env) (p : pc) (s : shared) :
  step_thread E 0 (mk_config [p] s)
  = match step E p s with
    | Some (p1, s1) => Some (mk_config [p1] s1)
    | None => None
    end.
Proof.
  unfold step_thread. simpl. destruct (step E p s) as [[p1 s1]|]; reflexivity.
Qed.

Lemma posts_ahead_callers (n : nat) : posts_ahead (repeat AtCheck n) = n.
Proof.
  induction n as [|n IH]; simpl; [reflexivity|]. now rewrite IH.
Qed.

(** C5, as the code has it. However [n] callers interleave, they send at
    most [n] POSTs between them; and a caller that finds no valid token and
    runs its five steps without another thread in between sends exactly one
    POST, leaves a value and an expiry that both come from that POST, and
    returns the granted token. *)
Theorem callers_refresh_at_most_once_each :
  forall (E : env) (self : client) (w : world),
    (forall (n : nat) (schedule : list nat) (c : config),
        run E schedule (callers n self w) = Some c ->
        (posts (the_world (state c)) <= posts w + n)%nat)
    /\ ((forall tok : string, ~ cached_and_valid E self w tok) ->
        forall (tok : string) (expires_in : option Z),
          server E (posts w) = Granted tok expires_in ->
          exists c : config,
            run E [0; 0; 0; 0; 0]%nat (callers 1 self w) = Some c
            /\ posts (the_world (state c)) = S (posts w)
            /\ value_cycle (state c) = Some (posts w)
            /\ expiry_cycle (state c) = Some (posts w)
            /\ access_token (the_client (state c)) = Some tok
            /\ threads c
               = [Returned (Some (posts w)) (Some (posts w)) (Some tok)]).
Proof.
  intros E self w. split.
  - intros n schedule c H. apply run_posts in H.
    unfold callers in H. simpl in H. rewrite posts_ahead_callers in H. lia.
  - intros NV tok ttl G.
    assert (F : fst (cache_is_fresh E self w) = false).
    { destruct (fst (cache_is_fresh E self w)) eqn:B; [|reflexivity].
      apply cache_is_fresh_true in B. destruct B as [t V].
      exfalso. exact (NV t V). }
    pose proof (cache_is_fresh_posts E self w) as P.
    unfold callers. cbn [repeat run].
    rewrite step_thread_alone. cbn [step the_client the_world].
    destruct (cache_is_fresh E self w) as [b w1]. simpl in F, P. subst b.
    rewrite step_thread_alone. cbn [step the_client the_world].
    rewrite P, G.
    do 3 (rewrite step_thread_alone; cbn [step]).
    eexists. split; [reflexivity|]. cbn. repeat split.
Qed.

Lemma callers_refresh_at_most_once_each_witness :
  let E := two_grants in
  let self := mk_client (Some "old") (Some 500%Z) in
  let w := mk_world 0 0 in
  (exists c : config,
      run E [0; 1; 0; 1; 0; 1; 1; 0]%nat (callers 2 self w) = Some c
      /\ (posts (the_world (state c)) <= 0 + 2)%nat)
  /\ (forall tok, ~ cached_and_valid E self w tok)
  /\ exists c : config,
      run E [0; 0; 0; 0; 0]%nat (callers 1 self w) = Some c
      /\ posts (the_world (state c)) = 1%nat
      /\ value_cycle (state c) = Some 0%nat
      /\ expiry_cycle (state c) = Some 0%nat.
Proof.
  intros E self w.
  pose proof (callers_refresh_at_most_once_each E self w) as [Hmany Hone].
  split.
  - destruct (run E [0; 1; 0; 1; 0; 1; 1; 0]%nat (callers 2 self w))
      as [c|] eqn:R; [|vm_compute in R; discriminate].
    exists c. split; [reflexivity|exact (Hmany 2%nat _ c R)].
  - assert (NV : forall tok, ~ cached_and_valid E self w tok).
    { intros tok [_ [_ [x [Hx L]]]]. inversion Hx. subst x. simpl in L. lia. }
    split; [exact NV|].
    destruct (Hone NV "A" (Some 3600%Z) eq_refl)
      as [c [R [Hp [Hv [He _]]]]].
    exists c. repeat split; assumption.
Defined.

(** C5, as the claim has it, fails. Three callers find the token expired.
    The first two both pass the check before either has stored anything:
    two POSTs are sent. They store their values and their expiries in
    opposite orders, leaving the value of the second grant with the expiry of
    the first; the third caller then reads that pair as valid and returns
    it, and the first caller returns the token of the second. *)
Lemma callers_refresh_twice_and_mix_cycles :
  let self := mk_client (Some "old") (Some 500%Z) in
  exists c : config,
    run two_grants [0; 1; 0; 1; 0; 1; 1; 0; 2; 2; 0; 1]%nat
      (callers 3 self (mk_world 0 0)) = Some c
    /\ posts (the_world (state c)) = 2%nat
    /\ the_client (state c) = mk_client (Some "B") (Some 4540%Z)
    /\ value_cycle (state c) = Some 1%nat
    /\ expiry_cycle (state c) = Some 0%nat
    /\ threads c
       = [Returned (Some 1%nat) (Some 0%nat) (Some "B");
          Returned (Some 1%nat) (Some 0%nat) (Some "B");
          Returned (Some 1%nat) (Some 0%nat) (Some "B")].
Proof.
  eexists. split; [vm_compute; reflexivity|]. repeat split.
Qed.

(** ** What does hold of the normaliser and of the aggregates *)

Lemma for_proposals_object_freights (proposals : list json) :
  forallb object_freight proposals = true ->
  forall st : locals,
    exists st1 : locals,
      for_proposals proposals st = Ok st1
      /\ freight_data st1 = freight_data st ++ flat_map records_of proposals.
Proof.
  induction proposals as [|p rest IH]; simpl; intros H st.
  - exists st. split; [reflexivity|now rewrite app_nil_r].
  - apply andb_true_iff in H. destruct H as [Hp Hrest].
    unfold object_freight in Hp.
    destruct (freight_of p) as [| | | | |fr] eqn:F; try discriminate.
    destruct p as [| | | | |items]; try discriminate.
    assert (G : get (JDict items) "freight" (JDict []) = Ok (JDict fr)).
    { unfold get. unfold freight_of in F. rewrite F. reflexivity. }
    unfold try_block. rewrite G. unfold records_of. rewrite F.
    destruct (build_record (JDict items) (JDict fr)) as [[r|]|e].
    + destruct (IH Hrest (mk_locals (Some (JDict fr))
                            (freight_data st ++ [r]) (stdout st)))
        as [st1 [R D]].
      exists st1. split; [exact R|].
      rewrite D. simpl. now rewrite <- app_assoc.
    + destruct (IH Hrest (mk_locals (Some (JDict fr)) (freight_data st)
                            (stdout st))) as [st1 [R D]].
      exists st1. split; [exact R|exact D].
    + unfold except_block. cbn [freight get bind freight_data stdout].
      destruct (IH Hrest
                  (mk_locals (Some (JDict fr)) (freight_data st)
                     (stdout st ++
                      [(match lookup "id" fr with
                        | Some v => v
                        | None => JStr "unknown"
                        end, e)]))) as [st1 [R D]].
      exists st1. split; [exact R|exact D].
Qed.

(** When the [freight] of every offer is an object (or is missing), the
    normaliser returns, and its result lists what each offer contributes in
    the order of the offers: a skipped offer, whether it has fewer than two
    stops or raised, contributes nothing. *)
Lemma extract_object_freights_in_order (proposals : list json) :
  forallb object_freight proposals = true ->
  extract_freight_data proposals = Ok (flat_map records_of proposals).
Proof.
  intros H. unfold extract_freight_data.
  destruct (for_proposals_object_freights proposals H (mk_locals None [] []))
    as [st1 [R D]].
  rewrite R. simpl. rewrite D. reflexivity.
Qed.

(** An offer with fewer than two stops contributes nothing. *)
Lemma records_of_short_stops (items fr : list (string * json))
  (stops : list json) :
  lookup "freight" items = Some (JDict fr) ->
  lookup "spots" fr = Some (JList stops) ->
  (List.length stops < 2)%nat ->
  records_of (JDict items) = [].
Proof.
  intros Hf Hs Hlen. unfold records_of, freight_of. rewrite Hf.
  destruct (build_record (JDict items) (JDict fr)) as [[r|]|e] eqn:B;
    try reflexivity.
  exfalso. unfold build_record in B.
  do 9 bind_inv B.
  bind_inv B. unfold get in E8. rewrite Hs in E8. inversion E8. subst.
  bind_inv B. simpl in E9. inversion E9. subst.
  destruct (Nat.leb_spec 2 (List.length stops)); [lia|discriminate].
Qed.

Lemma fold_Qmin_le (ps : list Q) :
  forall p : Q,
    fold_left Qmin ps p <= p
    /\ forall q, In q ps -> fold_left Qmin ps p <= q.
Proof.
  induction ps as [|x ps IH]; simpl; intros p.
  - split; [apply Qle_refl|intros q []].
  - destruct (IH (Qmin p x)) as [H1 H2]. split.
    + eapply Qle_trans; [exact H1|apply Q.le_min_l].
    + intros q [<-|I]; [|apply H2; exact I].
      eapply Qle_trans; [exact H1|apply Q.le_min_r].
Qed.

Lemma fold_Qmax_ge (ps : list Q) :
  forall p : Q,
    p <= fold_left Qmax ps p
    /\ forall q, In q ps -> q <= fold_left Qmax ps p.
Proof.
  induction ps as [|x ps IH]; simpl; intros p.
  - split; [apply Qle_refl|intros q []].
  - destruct (IH (Qmax p x)) as [H1 H2]. split.
    + eapply Qle_trans; [apply Q.le_max_l|exact H1].
    + intros q [<-|I]; [|apply H2; exact I].
      eapply Qle_trans; [apply Q.le_max_r|exact H1].
Qed.

(** [series_min] and [series_max] bound every price of the group. *)
Lemma series_min_max_bounds (ps : list Q) (q : Q) :
  In q ps -> series_min ps <= q /\ q <= series_max ps.
Proof.
  destruct ps as [|p ps]; [intros []|]. simpl.
  destruct (fold_Qmin_le ps p) as [L1 L2].
  destruct (fold_Qmax_ge ps p) as [G1 G2].
  intros [<-|I]; split; auto.
Qed.

(* ================================================================== *)
(** * Further properties of the code *)
(* ================================================================== *)

(** ** Rounding *)

(** [rint] lands within one half of its argument, and on an even integer
    when the argument lies exactly between two integers. *)
Lemma rint_near (n : Z) (d : positive) :
  let r := rint (n # d) in
  (- Zpos d <= 2 * (n - r * Zpos d) <= Zpos d)%Z
  /\ ((2 * (n - r * Zpos d) = Zpos d
       \/ 2 * (n - r * Zpos d) = - Zpos d)%Z -> Z.even r = true).
Proof.
  unfold rint. simpl Qnum. simpl Qden.
  pose proof (Z.div_mod n (Zpos d) ltac:(lia)) as DM.
  pose proof (Z.mod_pos_bound n (Zpos d) ltac:(lia)) as B.
  set (f := (n / Zpos d)%Z) in *. set (m := (n mod Zpos d)%Z) in *.
  destruct (Z.compare_spec (2 * m) (Zpos d)) as [E|L|G].
  - destruct (Z.even f) eqn:Ev.
    + split; [nia|intros _; exact Ev].
    + split; [nia|intros _].
      rewrite Z.add_1_r, Z.even_succ, <- Z.negb_even, Ev. reflexivity.
  - split; [nia|intros [H|H]; nia].
  - split; [nia|intros [H|H]; nia].
Qed.

Lemma rint_monotone (x y : Q) : x <= y -> (rint x <= rint y)%Z.
Proof.
  destruct x as [n1 d1], y as [n2 d2]. unfold Qle. simpl. intros L.
  destruct (rint_near n1 d1) as [B1 T1], (rint_near n2 d2) as [B2 T2].
  cbv zeta in *.
  set (a := rint (n1 # d1)) in *. set (b := rint (n2 # d2)) in *.
  set (D1 := Zpos d1) in *. set (D2 := Zpos d2) in *.
  assert (P1 : (0 < D1)%Z) by (unfold D1; lia).
  assert (P2 : (0 < D2)%Z) by (unfold D2; lia).
  destruct (Z_le_gt_dec a b) as [|G]; [assumption|exfalso].
  assert (P12 : (0 < D1 * D2)%Z) by (apply Z.mul_pos_pos; assumption).
  assert (H1 : ((2 * a - 1) * D1 * D2 <= 2 * n1 * D2)%Z).
  { apply Z.mul_le_mono_nonneg_r; lia. }
  assert (H2 : (2 * n2 * D1 <= (2 * b + 1) * D2 * D1)%Z).
  { apply Z.mul_le_mono_nonneg_r; lia. }
  assert (H3 : ((2 * b + 1) * (D1 * D2) <= (2 * a - 1) * (D1 * D2))%Z).
  { apply Z.mul_le_mono_nonneg_r; lia. }
  assert (Q1 : ((2 * n1 - (2 * a - 1) * D1) * D2 = 0)%Z) by lia.
  assert (Q2 : (((2 * b + 1) * D2 - 2 * n2) * D1 = 0)%Z) by lia.
  assert (Q3 : ((2 * a - 1 - (2 * b + 1)) * (D1 * D2) = 0)%Z) by lia.
  apply Z.mul_eq_0 in Q1, Q2, Q3.
  assert (Ha : (2 * (n1 - a * D1) = - D1)%Z) by lia.
  assert (Hb : (2 * (n2 - b * D2) = D2)%Z) by lia.
  assert (Hab : (a = b + 1)%Z) by lia.
  pose proof (T1 (or_intror Ha)) as Ea.
  pose proof (T2 (or_introl Hb)) as Eb.
  rewrite Hab, Z.add_1_r, Z.even_succ, <- Z.negb_even, Eb in Ea.
  discriminate.
Qed.

Lemma scale_pos (k : nat) : 0 < inject_Z (10 ^ Z.of_nat k).
Proof.
  unfold Qlt. simpl. rewrite Z.mul_1_r. apply Z.pow_pos_nonneg; lia.
Qed.

Lemma round_unfold (k : nat) (x : Q) :
  round k x
  == inject_Z (rint (x * inject_Z (10 ^ Z.of_nat k)))
     / inject_Z (10 ^ Z.of_nat k).
Proof. unfold round. apply Qred_correct. Qed.

Lemma round_monotone (k : nat) (x y : Q) :
  x <= y -> round k x <= round k y.
Proof.
  intros L. rewrite !round_unfold.
  pose proof (scale_pos k) as P. set (s := inject_Z (10 ^ Z.of_nat k)) in *.
  apply Qmult_le_compat_r.
  - rewrite <- Zle_Qle. apply rint_monotone.
    apply Qmult_le_compat_r; [exact L|apply Qlt_le_weak; exact P].
  - apply Qlt_le_weak. apply Qinv_lt_0_compat. exact P.
Qed.

Lemma round_compat (k : nat) (x y : Q) : x == y -> round k x = round k y.
Proof.
  intros E. unfold round. apply Qred_complete.
  assert (R : rint (x * inject_Z (10 ^ Z.of_nat k))
              = rint (y * inject_Z (10 ^ Z.of_nat k))).
  { apply Z.le_antisymm; apply rint_monotone; rewrite E; apply Qle_refl. }
  rewrite R. reflexivity.
Qed.

(** ** The aggregates of a group *)

Lemma fold_Qmin_glb (lo : Q) (ps : list Q) :
  forall p : Q,
    lo <= p -> (forall q, In q ps -> lo <= q) -> lo <= fold_left Qmin ps p.
Proof.
  induction ps as [|x ps IH]; simpl; intros p Lp L; [exact Lp|].
  apply IH; [apply Q.min_glb; auto|auto].
Qed.

Lemma fold_Qmax_lub (hi : Q) (ps : list Q) :
  forall p : Q,
    p <= hi -> (forall q, In q ps -> q <= hi) -> fold_left Qmax ps p <= hi.
Proof.
  induction ps as [|x ps IH]; simpl; intros p Lp L; [exact Lp|].
  apply IH; [apply Q.max_lub; auto|auto].
Qed.

Lemma count_succ (n : nat) :
  inject_Z (Z.of_nat (S n)) == inject_Z (Z.of_nat n) + 1.
Proof.
  rewrite Nat2Z.inj_succ, <- Z.add_1_r, inject_Z_plus. reflexivity.
Qed.

Lemma fold_Qplus_bounds (lo hi : Q) (ps : list Q) :
  (forall q, In q ps -> lo <= q <= hi) ->
  forall a : Q,
    a + inject_Z (Z.of_nat (List.length ps)) * lo <= fold_left Qplus ps a
    /\ fold_left Qplus ps a
       <= a + inject_Z (Z.of_nat (List.length ps)) * hi.
Proof.
  induction ps as [|x ps IH]; intros B a.
  - simpl. change (inject_Z 0) with 0. split; ring_simplify; apply Qle_refl.
  - cbn [fold_left List.length]. rewrite count_succ.
    destruct (B x (or_introl eq_refl)) as [Bl Bh].
    destruct (IH (fun q I => B q (or_intror I)) (a + x)) as [I1 I2].
    set (N := inject_Z (Z.of_nat (List.length ps))) in *.
    split.
    + eapply Qle_trans; [|exact I1]. ring_simplify. lra.
    + eapply Qle_trans; [exact I2|]. ring_simplify. lra.
Qed.

(** The mean of a non-empty series lies between its minimum and its
    maximum. *)
Lemma series_mean_between (ps : list Q) :
  ps <> [] -> series_min ps <= series_mean ps <= series_max ps.
Proof.
  intros Hne.
  assert (B : forall q, In q ps -> series_min ps <= q <= series_max ps)
    by (intros q I; apply series_min_max_bounds; exact I).
  destruct (fold_Qplus_bounds _ _ ps B 0) as [L H].
  assert (P : 0 < inject_Z (Z.of_nat (List.length ps))).
  { destruct ps; [congruence|]. unfold Qlt. simpl. lia. }
  unfold series_mean, series_sum.
  set (N := inject_Z (Z.of_nat (List.length ps))) in *.
  split.
  - apply Qle_shift_div_l; [exact P|]. lra.
  - apply Qle_shift_div_r; [exact P|]. lra.
Qed.

Lemma groupby_route_nonempty (df : DataFrame) (k : string) (ps : list Q) :
  In (k, ps) (groupby_route df) -> ps <> [].
Proof.
  intros I. pose proof (groupby_route_In _ _ _ I) as E.
  assert (K : In k (map fst df)).
  { apply groupby_route_keys. apply in_map_iff. exists (k, ps). auto. }
  apply in_map_iff in K. destruct K as [[k' q] [Ek Iq]]. simpl in Ek.
  subst k'. subst ps. unfold prices_of_route. intros N.
  apply map_eq_nil in N.
  assert (J : In (k, q) (filter (fun row => String.eqb (fst row) k) df)).
  { apply filter_In. split; [exact Iq|apply String.eqb_refl]. }
  rewrite N in J. exact J.
Qed.

Lemma analysis_row_order (df : DataFrame) (row : Stats.t) :
  In row (route_analysis df) ->
  Stats.price_min row <= Stats.price_mean row
  /\ Stats.price_mean row <= Stats.price_max row.
Proof.
  intros I. unfold route_analysis in I. apply in_map_iff in I.
  destruct I as [[k ps] [E I]]. subst row. simpl.
  destruct (series_mean_between ps (groupby_route_nonempty _ _ _ I))
    as [L H].
  split; apply round_monotone; assumption.
Qed.

Lemma sorted_routes_NoDup {A : Type} (f : A -> string) (l : list A) :
  StronglySorted (fun a b => String_as_OT.lt (f a) (f b)) l ->
  NoDup (map f l).
Proof.
  induction 1 as [|a l S IH F]; simpl; constructor; [|exact IH].
  intros I. apply in_map_iff in I. destruct I as [b [E Ib]].
  rewrite Forall_forall in F. apply (lt_neq _ _ (F b Ib)). now rewrite E.
Qed.

Lemma group_insert_total (r : string) (p : Q)
  (groups : list (string * list Q)) :
  list_sum (map (fun g => List.length (snd g)) (group_insert r p groups))
  = S (list_sum (map (fun g => List.length (snd g)) groups)).
Proof.
  induction groups as [|[k ps] rest IH]; simpl; [reflexivity|].
  destruct (String_as_OT.compare r k); simpl.
  - rewrite length_app. simpl. lia.
  - reflexivity.
  - rewrite IH. lia.
Qed.

Lemma groupby_route_total (df : DataFrame) :
  list_sum (map (fun g => List.length (snd g)) (groupby_route df))
  = List.length df.
Proof.
  unfold groupby_route.
  assert (G : forall groups,
             list_sum (map (fun g => List.length (snd g))
                         (fold_left
                            (fun gs row =>
                               group_insert (fst row) (snd row) gs)
                            df groups))
             = (list_sum (map (fun g => List.length (snd g)) groups)
                + List.length df)%nat).
  { induction df as [|row df IH]; simpl; intros groups; [lia|].
    rewrite IH, group_insert_total. lia. }
  rewrite G. reflexivity.
Qed.

Lemma pd_DataFrame_on_route (fd : list Freight.t) (df : DataFrame)
  (r : string) :
  pd_DataFrame fd = Some df ->
  List.length df = List.length fd
  /\ List.length (prices_of_route r df)
     = List.length
         (filter (fun f => String.eqb (Freight.route f) r) fd).
Proof.
  unfold prices_of_route.
  revert df. induction fd as [|f fd IH]; simpl; intros df H.
  - inversion H. split; reflexivity.
  - destruct (price_column f); [|discriminate].
    destruct (pd_DataFrame fd) as [df'|]; [|discriminate].
    inversion H. subst df. destruct (IH df' eq_refl) as [L1 L2]. simpl.
    split; [now rewrite L1|].
    destruct (String.eqb (Freight.route f) r); simpl;
      rewrite length_map in *; now rewrite L2.
Qed.

(** The shape of the route analysis. It has one row for every route of the
    input, no row for any other route and no two rows of one route; the
    count of a row is the number of input records on its route, which is at
    least 1, so the counts add up to the number of records; and the minimum
    of a row is at most its maximum. *)
Theorem analysis_row_invariant :
  forall (fd : list Freight.t) (df : DataFrame),
    pd_DataFrame fd = Some df ->
    (forall r : string,
        In r (map Stats.route (route_analysis df))
        <-> In r (map Freight.route fd))
    /\ NoDup (map Stats.route (route_analysis df))
    /\ (forall row : Stats.t,
           In row (route_analysis df) ->
           (1 <= Stats.price_count row)%nat
           /\ Stats.price_count row
              = List.length
                  (filter (fun f => String.eqb (Freight.route f)
                                      (Stats.route row)) fd)
           /\ Stats.price_min row <= Stats.price_max row)
    /\ list_sum (map Stats.price_count (route_analysis df))
       = List.length fd.
Proof.
  intros fd df D.
  assert (R : map Stats.route (route_analysis df)
              = map fst (groupby_route df)).
  { unfold route_analysis. rewrite map_map. reflexivity. }
  split; [|split; [|split]].
  - intros r. rewrite R, groupby_route_keys, (pd_DataFrame_routes _ _ D).
    reflexivity.
  - rewrite R. apply (sorted_routes_NoDup fst).
    apply StronglySorted_map'. exact (groupby_route_sorted df).
  - intros row I.
    destruct (analysis_row_order _ _ I) as [L H].
    unfold route_analysis in I. apply in_map_iff in I.
    destruct I as [[k ps] [E I]]. subst row. simpl in *.
    pose proof (groupby_route_nonempty _ _ _ I) as Hne.
    split; [destruct ps; [congruence|simpl; lia]|].
    split; [|eapply Qle_trans; eassumption].
    rewrite (groupby_route_In _ _ _ I).
    exact (proj2 (pd_DataFrame_on_route fd df k D)).
  - unfold route_analysis. rewrite map_map. simpl.
    rewrite groupby_route_total.
    exact (proj1 (pd_DataFrame_on_route fd df EmptyString D)).
Qed.

Lemma analysis_row_invariant_witness :
  let fd := [record_on "PL" "DE" 80; record_on "ES" "IT" 90;
             record_on "PL" "DE" 100; record_on "PL" "DE" 160] in
  let df := [("PL-DE", 80); ("ES-IT", 90); ("PL-DE", 100); ("PL-DE", 160)] in
  pd_DataFrame fd = Some df
  /\ NoDup (map Stats.route (route_analysis df))
  /\ list_sum (map Stats.price_count (route_analysis df)) = 4%nat.
Proof.
  intros fd df.
  assert (D : pd_DataFrame fd = Some df) by reflexivity.
  destruct (analysis_row_invariant fd df D) as [_ [N [_ T]]].
  split; [exact D|]. split; [exact N|exact T].
Defined.

Lemma detect_rows (fd : list Freight.t) (out : list Stats.t) :
  detect_arbitrage_opportunities fd = Some out ->
  out = []
  \/ exists df, pd_DataFrame fd = Some df
                /\ Permutation (filter is_arbitrage (route_analysis df)) out.
Proof.
  destruct fd as [|f fd]; intros H.
  - inversion H. left. reflexivity.
  - unfold detect_arbitrage_opportunities in H.
    destruct (pd_DataFrame (f :: fd)) as [df|] eqn:D; [|discriminate].
    inversion H. right. exists df. split; [reflexivity|].
    apply sort_values_desc_perm.
Qed.

(** Every reported route shows two different prices: its minimum lies
    strictly below its maximum. A route all of whose offers carry one
    price is therefore never reported. *)
Theorem detect_reports_a_spread :
  forall (fd : list Freight.t) (out : list Stats.t) (row : Stats.t),
    detect_arbitrage_opportunities fd = Some out ->
    In row out ->
    Stats.price_min row < Stats.price_max row
    /\ forall (df : DataFrame) (p : Q),
         pd_DataFrame fd = Some df ->
         ~ (forall q, In q (prices_of_route (Stats.route row) df) -> q == p).
Proof.
  intros fd out row H I.
  destruct (detect_rows _ _ H) as [->|[df [D P]]]; [destruct I|].
  apply (Permutation_in _ (Permutation_sym P)) in I.
  apply filter_In in I. destruct I as [I A].
  apply is_arbitrage_spec in A. destruct A as [V _].
  destruct (analysis_row_order _ _ I) as [L1 L2].
  unfold route_analysis in I. apply in_map_iff in I.
  destruct I as [[k ps] [E I]]. subst row. simpl in *.
  assert (S : round 2 (series_min ps) < round 2 (series_max ps)).
  { apply Qnot_le_lt. intros G.
    assert (Z0 : (round 2 (series_max ps) - round 2 (series_min ps))
                 / replace_0_1 (round 2 (series_mean ps)) == 0).
    { assert (E0 : round 2 (series_max ps) - round 2 (series_min ps) == 0)
        by lra.
      rewrite E0. unfold Qdiv. apply Qmult_0_l. }
    rewrite (round_compat 3 _ _ Z0) in V. vm_compute in V. discriminate. }
  split; [exact S|].
  intros df' p D' U. rewrite D in D'. inversion D'. subst df'.
  rewrite <- (groupby_route_In _ _ _ I) in U.
  pose proof (groupby_route_nonempty _ _ _ I) as Hne.
  destruct ps as [|q0 ps]; [congruence|].
  assert (Emin : series_min (q0 :: ps) == p).
  { apply Qle_antisym.
    - rewrite <- (U q0 (or_introl eq_refl)).
      apply series_min_max_bounds. left. reflexivity.
    - simpl. apply fold_Qmin_glb.
      + rewrite (U q0 (or_introl eq_refl)). apply Qle_refl.
      + intros q Iq. rewrite (U q (or_intror Iq)). apply Qle_refl. }
  assert (Emax : series_max (q0 :: ps) == p).
  { apply Qle_antisym.
    - simpl. apply fold_Qmax_lub.
      + rewrite (U q0 (or_introl eq_refl)). apply Qle_refl.
      + intros q Iq. rewrite (U q (or_intror Iq)). apply Qle_refl.
    - rewrite <- (U q0 (or_introl eq_refl)).
      apply series_min_max_bounds. left. reflexivity. }
  rewrite (round_compat 2 _ _ Emin), (round_compat 2 _ _ Emax) in S.
  exact (Qlt_irrefl _ S).
Qed.

Lemma detect_reports_a_spread_witness :
  let fd := [record_on "PL" "DE" 80; record_on "ES" "IT" 90;
             record_on "PL" "DE" 100; record_on "PL" "DE" 160;
             record_on "ES" "IT" 95] in
  let row := Stats.mk "PL-DE" 113.33 80 160 3 (353 # 500) in
  detect_arbitrage_opportunities fd = Some [row]
  /\ Stats.price_min row < Stats.price_max row.
Proof.
  intros fd row.
  assert (H : detect_arbitrage_opportunities fd = Some [row])
    by (vm_compute; reflexivity).
  split; [exact H|].
  exact (proj1 (detect_reports_a_spread fd [row] row H (or_introl eq_refl))).
Defined.

(** ** The routes of a result *)

(** [groupby] makes as many groups as [set] finds routes. *)
Lemma groups_are_unique_routes (fd : list Freight.t) (df : DataFrame) :
  pd_DataFrame fd = Some df ->
  List.length (route_analysis df) = unique_routes fd.
Proof.
  intros D. unfold route_analysis, unique_routes.
  rewrite length_map, <- (length_map fst).
  apply Permutation_length. apply NoDup_Permutation.
  - apply (sorted_routes_NoDup fst).
    apply StronglySorted_map'. exact (groupby_route_sorted df).
  - apply NoDup_nodup.
  - intros k. rewrite groupby_route_keys, nodup_In.
    rewrite (pd_DataFrame_routes _ _ D). reflexivity.
Qed.

(** The detector reports no route twice, reports only routes that occur in
    its input, and so reports at most as many routes as the input has. *)
Theorem detect_routes_distinct :
  forall (fd : list Freight.t) (out : list Stats.t),
    detect_arbitrage_opportunities fd = Some out ->
    NoDup (map Stats.route out)
    /\ (forall row, In row out -> In (Stats.route row) (map Freight.route fd))
    /\ (List.length out <= unique_routes fd)%nat.
Proof.
  intros fd out H.
  destruct (detect_rows _ _ H) as [->|[df [D P]]].
  - split; [constructor|]. split; [intros row []|simpl; lia].
  - split; [|split].
    + apply (Permutation_NoDup (Permutation_map Stats.route P)).
      apply sorted_routes_NoDup. apply StronglySorted_filter'.
      apply route_analysis_sorted.
    + intros row I. apply (Permutation_in _ (Permutation_sym P)) in I.
      apply filter_In in I. destruct I as [I _].
      unfold route_analysis in I. apply in_map_iff in I.
      destruct I as [[k ps] [E I]]. subst row. simpl.
      rewrite <- (pd_DataFrame_routes _ _ D). apply groupby_route_keys.
      apply in_map_iff. exists (k, ps). auto.
    + rewrite <- (Permutation_length P), <- (groups_are_unique_routes _ _ D).
      apply filter_length_le.
Qed.

Lemma detect_routes_distinct_witness :
  let fd := [record_on "PL" "DE" 100; record_on "PL" "DE" 150;
             record_on "ES" "IT" 10; record_on "ES" "IT" 90;
             record_on "DE" "FR" 100; record_on "DE" "FR" 150] in
  exists out : list Stats.t,
    detect_arbitrage_opportunities fd = Some out
    /\ NoDup (map Stats.route out)
    /\ (List.length out <= unique_routes fd)%nat.
Proof.
  intros fd.
  destruct (detect_arbitrage_opportunities fd) as [out|] eqn:H;
    [|vm_compute in H; discriminate].
  exists out. split; [reflexivity|].
  destruct (detect_routes_distinct fd out H) as [N [_ L]].
  split; assumption.
Defined.

(** ** The normaliser, offer by offer *)

Lemma for_proposals_survives (proposals : list json) :
  forall st : locals,
    (freight st = None \/ exists fr, freight st = Some (JDict fr)) ->
    if survives (match freight st with Some _ => true | None => false end)
         proposals
    then exists st1,
        for_proposals proposals st = Ok st1
        /\ freight_data st1
           = freight_data st ++ flat_map records_of proposals
    else for_proposals proposals st = Raise AttributeError
         \/ for_proposals proposals st = Raise UnboundLocalError.
Proof.
  induction proposals as [|p rest IH]; intros st Hst.
  - simpl. exists st. split; [reflexivity|now rewrite app_nil_r].
  - assert (Hnot : (match p with JDict _ => False | _ => True end) ->
        if (match freight st with Some _ => true | None => false end)
           && survives
                (match freight st with Some _ => true | None => false end)
                rest
        then exists st1,
            for_proposals (p :: rest) st = Ok st1
            /\ freight_data st1
               = freight_data st ++ flat_map records_of (p :: rest)
        else for_proposals (p :: rest) st = Raise AttributeError
             \/ for_proposals (p :: rest) st = Raise UnboundLocalError).
    { intros Np.
      assert (T : try_block p st = (st, Raise AttributeError))
        by (destruct p; try contradiction; reflexivity).
      assert (R : records_of p = [])
        by (destruct p; try contradiction; reflexivity).
      cbn [for_proposals flat_map]. rewrite T, R. cbn [app].
      unfold except_block.
      destruct Hst as [N|[fr S]].
      - rewrite N. simpl. right. reflexivity.
      - rewrite S. cbn [get bind andb].
        specialize (IH (mk_locals (Some (JDict fr)) (freight_data st)
                          (stdout st ++
                           [(match lookup "id" fr with
                             | Some v => v
                             | None => JStr "unknown"
                             end, AttributeError)]))
                      (or_intror (ex_intro _ fr eq_refl))).
        cbn [freight freight_data] in IH. exact IH. }
    destruct p as [| | | | |items]; try (apply Hnot; exact I).
    clear Hnot. cbn [survives for_proposals flat_map].
    unfold object_freight, records_of, try_block.
    assert (G : get (JDict items) "freight" (JDict [])
                = Ok (freight_of (JDict items))) by reflexivity.
    rewrite G.
    destruct (freight_of (JDict items)) as [| | | | |fr] eqn:F;
      try (cbn; left; reflexivity).
    cbn [andb].
    destruct (build_record (JDict items) (JDict fr)) as [[r|]|e].
    + specialize (IH (mk_locals (Some (JDict fr)) (freight_data st ++ [r])
                        (stdout st)) (or_intror (ex_intro _ fr eq_refl))).
      cbn [freight freight_data] in IH.
      destruct (survives true rest); [|exact IH].
      destruct IH as [st1 [R D]]. exists st1. split; [exact R|].
      rewrite D. simpl. now rewrite <- app_assoc.
    + specialize (IH (mk_locals (Some (JDict fr)) (freight_data st)
                        (stdout st)) (or_intror (ex_intro _ fr eq_refl))).
      cbn [freight freight_data] in IH. exact IH.
    + unfold except_block. cbn [freight get bind freight_data stdout].
      specialize (IH (mk_locals (Some (JDict fr)) (freight_data st)
                        (stdout st ++
                         [(match lookup "id" fr with
                           | Some v => v
                           | None => JStr "unknown"
                           end, e)]))
                    (or_intror (ex_intro _ fr eq_refl))).
      cbn [freight freight_data] in IH. exact IH.
Qed.

Lemma records_of_at_most_one (p : json) : (List.length (records_of p) <= 1)%nat.
Proof.
  unfold records_of.
  destruct (build_record p (freight_of p)) as [[r|]|e]; simpl; lia.
Qed.

Lemma flat_map_records_length (proposals : list json) :
  (List.length (flat_map records_of proposals) <= List.length proposals)%nat.
Proof.
  induction proposals as [|p rest IH]; simpl; [lia|].
  rewrite length_app. pose proof (records_of_at_most_one p). lia.
Qed.

(** The normaliser returns exactly on the lists that [survives] accepts, and
    then returns what the offers contribute, in their order; on every other
    list it raises, and what it raises is an [AttributeError] or an
    [UnboundLocalError] from its own exception handler. *)
Theorem extract_returns_iff_survives :
  forall proposals : list json,
    if survives false proposals
    then extract_freight_data proposals
         = Ok (flat_map records_of proposals)
    else extract_freight_data proposals = Raise AttributeError
         \/ extract_freight_data proposals = Raise UnboundLocalError.
Proof.
  intros proposals. unfold extract_freight_data.
  pose proof (for_proposals_survives proposals (mk_locals None [] [])
                (or_introl eq_refl)) as H.
  cbn [freight freight_data] in H.
  destruct (survives false proposals).
  - destruct H as [st1 [R D]]. rewrite R. simpl. rewrite D. reflexivity.
  - destruct H as [R|R]; rewrite R; simpl; auto.
Qed.

Lemma extract_Ok_flat_map (proposals : list json) (out : list Freight.t) :
  extract_freight_data proposals = Ok out ->
  out = flat_map records_of proposals.
Proof.
  unfold extract_freight_data. intros H.
  pose proof (for_proposals_survives proposals (mk_locals None [] [])
                (or_introl eq_refl)) as S.
  cbn [freight freight_data] in S.
  destruct (survives false proposals).
  - destruct S as [st1 [R D]]. rewrite R in H. simpl in H.
    inversion H. rewrite D. reflexivity.
  - destruct S as [R|R]; rewrite R in H; discriminate.
Qed.

(** Whenever the normaliser returns, every offer has contributed one record
    or none, independently of the other offers, and the records stand in the
    order of their offers; it never returns more records than it was given
    offers. *)
Theorem extract_in_input_order :
  forall (proposals : list json) (out : list Freight.t),
    extract_freight_data proposals = Ok out ->
    out = flat_map records_of proposals
    /\ (List.length out <= List.length proposals)%nat
    /\ forall l1 l2 : list json,
         proposals = l1 ++ l2 ->
         out = flat_map records_of l1 ++ flat_map records_of l2.
Proof.
  intros proposals out H.
  rewrite (extract_Ok_flat_map _ _ H).
  split; [reflexivity|]. split; [apply flat_map_records_length|].
  intros l1 l2 ->. apply flat_map_app.
Qed.

Lemma extract_in_input_order_witness :
  let proposals :=
    [unpriced_offer "pl" "de";
     JDict [("freight", JDict [("publication", JNull)])];
     JStr "noise";
     unpriced_offer "DE" "fr"] in
  let out := [record_on "PL" "DE" 0; record_on "DE" "FR" 0] in
  extract_freight_data proposals = Ok out
  /\ out = flat_map records_of proposals
  /\ (List.length out <= List.length proposals)%nat.
Proof.
  intros proposals out.
  assert (H : extract_freight_data proposals = Ok out)
    by (vm_compute; reflexivity).
  destruct (extract_in_input_order proposals out H) as [E [L _]].
  split; [exact H|]. split; assumption.
Defined.

Lemma readable_stop_reads (s : json) :
  readable_stop s = true ->
  forall (A : Type) (k : string -> json -> result A),
    (place <- get s "place" (JDict []) ;;
     address <- get place "address" (JDict []) ;;
     code <- get address "country" (JStr "") ;;
     country <- upper code ;;
     city <- get address "locality" (JStr "") ;;
     k country city)
    = k (stop_country s) (stop_city s).
Proof.
  unfold readable_stop, stop_country, stop_city, stop_address, dig.
  intros H A k.
  destruct s as [| | | | |items]; try discriminate. simpl.
  destruct (lookup "place" items) as [[| | | | |place]|]; try discriminate;
    simpl; [|reflexivity].
  destruct (lookup "address" place) as [[| | | | |address]|];
    try discriminate; simpl; [|reflexivity].
  destruct (lookup "country" address) as [[| | |c| |]|];
    try discriminate; reflexivity.
Qed.

Lemma readable_amounts_reads (fr : list (string * json)) :
  readable_amounts fr = true ->
  forall (A : Type) (k : json -> json -> json -> json -> result A),
    (publication <- get (JDict fr) "publication" (JDict []) ;;
     price_info <- get publication "price" (JDict []) ;;
     price <- get price_info "value" (JNum 0) ;;
     currency <- get price_info "currency" (JStr "EUR") ;;
     capacity_info <- get (JDict fr) "capacity" (JDict []) ;;
     capacity <- get capacity_info "value" (JNum 0) ;;
     capacity_unit <- get capacity_info "unit_code" (JStr "t") ;;
     k price currency capacity capacity_unit)
    = k (dig (price_info_of fr) "value" (JNum 0))
        (dig (price_info_of fr) "currency" (JStr "EUR"))
        (dig (capacity_info_of fr) "value" (JNum 0))
        (dig (capacity_info_of fr) "unit_code" (JStr "t")).
Proof.
  unfold readable_amounts, price_info_of, capacity_info_of, dig.
  intros H A k. apply andb_true_iff in H. destruct H as [Hp Hc]. simpl.
  destruct (lookup "publication" fr) as [[| | | | |pub]|];
    try discriminate; simpl;
    [destruct (lookup "price" pub) as [[| | | | |pr]|];
     try discriminate; simpl|];
    (destruct (lookup "capacity" fr) as [[| | | | |cap]|];
     try discriminate; reflexivity).
Qed.

(** On an offer it can read, [build_record] raises nothing and returns the
    record whose every field is the offer's value or the default. *)
Lemma build_record_readable (p fr : list (string * json)) (s0 sl : json)
  (mid : list json) :
  lookup "spots" fr = Some (JList (s0 :: mid ++ [sl])) ->
  readable_stop s0 = true -> readable_stop sl = true ->
  readable_amounts fr = true ->
  build_record (JDict p) (JDict fr) = Ok (Some (record_from p fr s0 sl)).
Proof.
  intros Hspots H0 Hl Ham.
  destruct (len_of_list s0 sl mid) as [n [Hn Hn2]].
  unfold build_record.
  simpl (get (JDict fr) "id" JNull). simpl (get (JDict p) "status" JNull).
  cbn [bind].
  rewrite (readable_amounts_reads fr Ham (option Freight.t)
    (fun price currency capacity capacity_unit =>
       spots <- get (JDict fr) "spots" (JList []) ;;
       n <- len spots ;;
       if (2 <=? n)%nat then
         loading_spot <- first spots ;;
         loading_place <- get loading_spot "place" (JDict []) ;;
         loading_address <- get loading_place "address" (JDict []) ;;
         loading_code <- get loading_address "country" (JStr "") ;;
         loading_country <- upper loading_code ;;
         loading_city <- get loading_address "locality" (JStr "") ;;
         unloading_spot <- last spots ;;
         unloading_place <- get unloading_spot "place" (JDict []) ;;
         unloading_address <- get unloading_place "address" (JDict []) ;;
         unloading_code <- get unloading_address "country" (JStr "") ;;
         unloading_country <- upper unloading_code ;;
         unloading_city <- get unloading_address "locality" (JStr "") ;;
         distance <- get (JDict fr) "distance" (JNum 0) ;;
         Ok (Some (Freight.mk
                     match lookup "id" fr with Some v => v | None => JNull end
                     match lookup "status" p with
                     | Some v => v | None => JNull end
                     price currency capacity
                     capacity_unit loading_country loading_city
                     unloading_country unloading_city
                     (loading_country ++ "-" ++ unloading_country)
                     distance))
       else Ok None)).
  assert (Hget : get (JDict fr) "spots" (JList [])
                 = Ok (JList (s0 :: mid ++ [sl]))).
  { unfold get. rewrite Hspots. reflexivity. }
  rewrite Hget. cbn [bind]. rewrite Hn. cbn [bind]. rewrite Hn2.
  cbn [first bind]. rewrite (readable_stop_reads s0 H0).
  rewrite last_of_list. cbn [bind]. rewrite (readable_stop_reads sl Hl).
  reflexivity.
Qed.

(** The loading country and city of a record are those of the offer's first
    stop and the unloading country and city those of its last stop, the
    countries in upper case and the cities as they stand (the empty string
    where the stop has none); the stops in between play no part. *)
Theorem extract_reads_first_and_last_stop :
  forall (p fr : list (string * json)) (s0 sl : json) (mid : list json),
    lookup "freight" p = Some (JDict fr) ->
    lookup "spots" fr = Some (JList (s0 :: mid ++ [sl])) ->
    readable_stop s0 = true ->
    readable_stop sl = true ->
    readable_amounts fr = true ->
    exists r : Freight.t,
      extract_freight_data [JDict p] = Ok [r]
      /\ Freight.loading_country r = stop_country s0
      /\ Freight.loading_city r = stop_city s0
      /\ Freight.unloading_country r = stop_country sl
      /\ Freight.unloading_city r = stop_city sl
      /\ Freight.route r = (stop_country s0 ++ "-" ++ stop_country sl)%string.
Proof.
  intros p fr s0 sl mid Hf Hs H0 Hl Ha.
  pose proof (build_record_readable p fr s0 sl mid Hs H0 Hl Ha) as B.
  exists (record_from p fr s0 sl). split; [|repeat split].
  unfold extract_freight_data. simpl.
  rewrite (try_block_appends p fr _ _ Hf B). reflexivity.
Qed.

Lemma extract_reads_first_and_last_stop_witness :
  let fr := [("spots", JList [stop_at "pl" "Gdansk"; stop_at "cz" "Brno";
                              stop_at "de" "Kiel"])] in
  let p := [("freight", JDict fr)] in
  exists r : Freight.t,
    extract_freight_data [JDict p] = Ok [r]
    /\ Freight.loading_country r = "PL"
    /\ Freight.loading_city r = JStr "Gdansk"
    /\ Freight.unloading_country r = "DE"
    /\ Freight.unloading_city r = JStr "Kiel"
    /\ Freight.route r = "PL-DE".
Proof.
  intros fr p.
  destruct (extract_reads_first_and_last_stop p fr (stop_at "pl" "Gdansk")
              (stop_at "de" "Kiel") [stop_at "cz" "Brno"]
              eq_refl eq_refl eq_refl eq_refl eq_refl)
    as [r [H [A [B [C [D E]]]]]].
  exists r. split; [exact H|].
  rewrite A, B, C, D, E. repeat split.
Defined.

(** The price, currency, capacity and capacity unit of a record are the
    offer's [publication.price.value], [publication.price.currency],
    [capacity.value] and [capacity.unit_code]; an offer without a price
    object is recorded at price 0 in EUR, an offer without a capacity object
    at capacity 0 in t. *)
Theorem extract_amount_defaults :
  forall (p fr : list (string * json)) (s0 sl : json) (mid : list json),
    lookup "freight" p = Some (JDict fr) ->
    lookup "spots" fr = Some (JList (s0 :: mid ++ [sl])) ->
    readable_stop s0 = true ->
    readable_stop sl = true ->
    readable_amounts fr = true ->
    exists r : Freight.t,
      extract_freight_data [JDict p] = Ok [r]
      /\ Freight.price r = dig (price_info_of fr) "value" (JNum 0)
      /\ Freight.currency r = dig (price_info_of fr) "currency" (JStr "EUR")
      /\ Freight.capacity r = dig (capacity_info_of fr) "value" (JNum 0)
      /\ Freight.capacity_unit r
         = dig (capacity_info_of fr) "unit_code" (JStr "t")
      /\ (lookup "publication" fr = None ->
          Freight.price r = JNum 0 /\ Freight.currency r = JStr "EUR")
      /\ (lookup "capacity" fr = None ->
          Freight.capacity r = JNum 0 /\ Freight.capacity_unit r = JStr "t").
Proof.
  intros p fr s0 sl mid Hf Hs H0 Hl Ha.
  pose proof (build_record_readable p fr s0 sl mid Hs H0 Hl Ha) as B.
  exists (record_from p fr s0 sl).
  split; [|split; [|split; [|split; [|split; [|split]]]]];
    try reflexivity.
  - unfold extract_freight_data. simpl.
    rewrite (try_block_appends p fr _ _ Hf B). reflexivity.
  - intros N. unfold record_from, price_info_of, dig. simpl. rewrite N.
    simpl. split; reflexivity.
  - intros N. unfold record_from, capacity_info_of, dig. simpl. rewrite N.
    simpl. split; reflexivity.
Qed.

Lemma extract_amount_defaults_witness :
  let fr := [("spots", JList [stop_in "DE"; stop_in "FR"]);
             ("publication",
              JDict [("price", JDict [("value", JNum 250)])])] in
  let p := [("freight", JDict fr)] in
  exists r : Freight.t,
    extract_freight_data [JDict p] = Ok [r]
    /\ Freight.price r = JNum 250
    /\ Freight.currency r = JStr "EUR"
    /\ Freight.capacity r = JNum 0
    /\ Freight.capacity_unit r = JStr "t".
Proof.
  intros fr p.
  destruct (extract_amount_defaults p fr (stop_in "DE") (stop_in "FR") []
              eq_refl eq_refl eq_refl eq_refl eq_refl)
    as [r [H [A [B [_ [_ [_ C]]]]]]].
  destruct (C eq_refl) as [C1 C2].
  exists r. split; [exact H|].
  rewrite A, B, C1, C2. repeat split.
Defined.

(** An offer whose freight lists fewer than two stops, or no stops at all,
    contributes no record and leaves the records of the offers around it as
    they are. *)
Theorem extract_skips_short_routes :
  forall (items fr : list (string * json)) (l1 l2 : list json)
         (out : list Freight.t),
    lookup "freight" items = Some (JDict fr) ->
    (lookup "spots" fr = None
     \/ exists stops, lookup "spots" fr = Some (JList stops)
                      /\ (List.length stops < 2)%nat) ->
    extract_freight_data (l1 ++ JDict items :: l2) = Ok out ->
    records_of (JDict items) = []
    /\ out = flat_map records_of l1 ++ flat_map records_of l2.
Proof.
  intros items fr l1 l2 out Hf Hs H.
  assert (R : records_of (JDict items) = []).
  { unfold records_of, freight_of. rewrite Hf.
    destruct (build_record (JDict items) (JDict fr)) as [[r|]|e] eqn:B;
      try reflexivity.
    exfalso. unfold build_record in B.
    do 9 bind_inv B. bind_inv B. bind_inv B.
    assert (L : (v9 < 2)%nat).
    { unfold get in E8.
      destruct Hs as [N|[stops [S L]]].
      - rewrite N in E8. inversion E8. subst. simpl in E9. inversion E9.
        simpl. lia.
      - rewrite S in E8. inversion E8. subst. simpl in E9. inversion E9.
        exact L. }
    destruct (Nat.leb_spec 2 v9); [lia|discriminate]. }
  split; [exact R|].
  rewrite (extract_Ok_flat_map _ _ H), flat_map_app. simpl.
  rewrite R. reflexivity.
Qed.

Lemma extract_skips_short_routes_witness :
  let items := [("freight", JDict [("spots", JList [stop_in "DE"])])] in
  let l1 := [unpriced_offer "PL" "DE"] in
  let l2 := [unpriced_offer "DE" "FR"] in
  exists out : list Freight.t,
    extract_freight_data (l1 ++ JDict items :: l2) = Ok out
    /\ out = flat_map records_of l1 ++ flat_map records_of l2.
Proof.
  intros items l1 l2.
  destruct (extract_freight_data (l1 ++ JDict items :: l2)) as [out|e] eqn:H;
    [|vm_compute in H; discriminate].
  exists out. split; [reflexivity|].
  refine (proj2 (extract_skips_short_routes items
                   [("spots", JList [stop_in "DE"])] l1 l2 out eq_refl _ H)).
  right. exists [stop_in "DE"]. split; [reflexivity|simpl; lia].
Defined.

(** ** The token cache across calls *)

Lemma cache_is_fresh_false (E : env) (self : client) (w : world) :
  fst (cache_is_fresh E self w) = false <->
  forall tok, ~ cached_and_valid E self w tok.
Proof.
  split.
  - intros F tok V.
    assert (T : fst (cache_is_fresh E self w) = true)
      by (apply cache_is_fresh_true; exists tok; exact V).
    congruence.
  - intros NV. destruct (fst (cache_is_fresh E self w)) eqn:B; [|reflexivity].
    apply cache_is_fresh_true in B. destruct B as [t V].
    exfalso. exact (NV t V).
Qed.

Lemma get_access_token_hit (E : env) (self : client) (w : world)
  (tok : string) :
  cached_and_valid E self w tok ->
  get_access_token E self w
  = (Ok (Some tok), self, mk_world (S (ticks w)) (posts w)).
Proof.
  intros V. pose proof V as [Ht [Hn [exp [He L]]]].
  unfold get_access_token, cache_is_fresh. rewrite Ht, He.
  apply truthy_nonempty in Hn. rewrite Hn.
  apply Z.ltb_lt in L. rewrite L. reflexivity.
Qed.

Lemma get_access_token_miss (E : env) (self : client) (w : world) :
  (forall tok, ~ cached_and_valid E self w tok) ->
  exists w0 : world,
    posts w0 = posts w
    /\ (ticks w <= ticks w0)%nat
    /\ get_access_token E self w = refresh_token E self w0.
Proof.
  intros NV. apply cache_is_fresh_false in NV.
  pose proof (cache_is_fresh_posts E self w) as P.
  assert (T : (ticks w <= ticks (snd (cache_is_fresh E self w)))%nat).
  { unfold cache_is_fresh. destruct (access_token self); [|simpl; lia].
    destruct (token_expires_at self); [|simpl; lia].
    destruct (truthy s); simpl; lia. }
  unfold get_access_token.
  destruct (cache_is_fresh E self w) as [b w0]. simpl in *. subst b.
  exists w0. split; [exact P|]. split; [exact T|reflexivity].
Qed.

(** Token reuse. After a call that refreshed and was granted a non-empty
    token, a second call made while the clock reads less than the stored
    expiry returns the same token, leaves the client as it is and sends no
    POST. *)
Theorem get_access_token_second_call_reuses :
  forall (E : env) (self : client) (w : world) (tok : string)
         (expires_in : option Z),
    (forall t, ~ cached_and_valid E self w t) ->
    server E (posts w) = Granted tok expires_in ->
    tok <> EmptyString ->
    exists (self1 : client) (w1 : world) (expires_at : Z),
      get_access_token E self w = (Ok (Some tok), self1, w1)
      /\ token_expires_at self1 = Some expires_at
      /\ ((clock E (ticks w1) < expires_at)%Z ->
          exists w2 : world,
            get_access_token E self1 w1 = (Ok (Some tok), self1, w2)
            /\ posts w2 = posts w1
            /\ posts w1 = S (posts w)).
Proof.
  intros E self w tok ttl NV G Hne.
  destruct (get_access_token_miss E self w NV) as [w0 [P [_ R]]].
  rewrite R. unfold refresh_token. rewrite P, G.
  do 3 eexists. split; [reflexivity|]. split; [reflexivity|].
  intros L. eexists. split.
  - apply get_access_token_hit. split; [reflexivity|].
    split; [exact Hne|]. eexists. split; [reflexivity|exact L].
  - split; reflexivity.
Qed.

Lemma get_access_token_second_call_reuses_witness :
  let self := mk_client (Some "old") (Some 500%Z) in
  let w := mk_world 0 0 in
  exists (self1 : client) (w1 w2 : world),
    get_access_token two_grants self w = (Ok (Some "A"), self1, w1)
    /\ get_access_token two_grants self1 w1 = (Ok (Some "A"), self1, w2)
    /\ posts w2 = 1%nat.
Proof.
  intros self w.
  assert (NV : forall t, ~ cached_and_valid two_grants self w t).
  { intros t [_ [_ [x [Hx L]]]]. inversion Hx. subst x. simpl in L. lia. }
  destruct (get_access_token_second_call_reuses two_grants self w "A"
              (Some 3600%Z) NV eq_refl ltac:(discriminate))
    as [self1 [w1 [exp [H1 [He K]]]]].
  assert (Hexp : exp = 4540%Z).
  { vm_compute in H1. inversion H1. subst. simpl in He. inversion He.
    reflexivity. }
  assert (L : (clock two_grants (ticks w1) < exp)%Z)
    by (rewrite Hexp; simpl; lia).
  destruct (K L) as [w2 [H2 [P2 P1]]].
  exists self1, w1, w2. split; [exact H1|]. split; [exact H2|].
  rewrite P2, P1. reflexivity.
Defined.

(** A grant of 60 seconds or less is never reused. With a clock that does
    not run backwards, the token stored by such a refresh is already expired
    when it is stored: the next call sends a POST again. *)
Theorem get_access_token_short_ttl_refreshes_again :
  forall (E : env) (self : client) (w : world) (tok : string)
         (expires_in : option Z),
    (forall i j : nat, (i <= j)%nat -> (clock E i <= clock E j)%Z) ->
    (forall t, ~ cached_and_valid E self w t) ->
    server E (posts w) = Granted tok expires_in ->
    (ttl_or_default expires_in <= 60)%Z ->
    exists (self1 : client) (w1 : world),
      get_access_token E self w = (Ok (Some tok), self1, w1)
      /\ posts w1 = S (posts w)
      /\ posts (snd (get_access_token E self1 w1)) = S (S (posts w)).
Proof.
  intros E self w tok ttl Mono NV G Short.
  destruct (get_access_token_miss E self w NV) as [w0 [P [_ R]]].
  rewrite R. unfold refresh_token. rewrite P, G.
  do 2 eexists. split; [reflexivity|]. split; [reflexivity|].
  match goal with
  | |- posts (snd (get_access_token E ?s ?w1)) = _ =>
      destruct (get_access_token_miss E s w1) as [w2 [P2 [_ R2]]]
  end.
  - intros t [_ [_ [x [Hx L]]]]. simpl in Hx, L. inversion Hx. subst x.
    unfold ttl_or_default in Short.
    pose proof (Mono (ticks w0) (S (ticks w0)) ltac:(lia)).
    destruct ttl; lia.
  - rewrite R2. unfold refresh_token. rewrite P2. simpl.
    destruct (server E (S (posts w))); reflexivity.
Qed.

Lemma get_access_token_short_ttl_refreshes_again_witness :
  let E := mk_env (fun k => Z.of_nat k) (fun _ => Granted "A" (Some 60%Z)) in
  let self := mk_client None None in
  let w := mk_world 0 0 in
  exists (self1 : client) (w1 : world),
    get_access_token E self w = (Ok (Some "A"), self1, w1)
    /\ posts (snd (get_access_token E self1 w1)) = 2%nat.
Proof.
  intros E self w.
  assert (Mono : forall i j, (i <= j)%nat -> (clock E i <= clock E j)%Z)
    by (intros i j L; simpl; lia).
  assert (NV : forall t, ~ cached_and_valid E self w t)
    by (intros t [Ht _]; discriminate).
  destruct (get_access_token_short_ttl_refreshes_again E self w "A"
              (Some 60%Z) Mono NV eq_refl ltac:(simpl; lia))
    as [self1 [w1 [H1 [_ H2]]]].
  exists self1, w1. split; assumption.
Defined.

Lemma get_access_token_granted (E : env) (self : client) (w : world)
  (tok : string) (ttl : option Z) :
  (forall t, ~ cached_and_valid E self w t) ->
  server E (posts w) = Granted tok ttl ->
  exists w0 : world,
    posts w0 = posts w
    /\ get_access_token E self w
       = (Ok (Some tok),
          mk_client (Some tok)
            (Some (clock E (ticks w0) + (ttl_or_default ttl - 60))%Z),
          mk_world (S (ticks w0)) (S (posts w))).
Proof.
  intros NV G.
  destruct (get_access_token_miss E self w NV) as [w0 [P [_ R]]].
  exists w0. split; [exact P|].
  rewrite R. unfold refresh_token. rewrite P, G. reflexivity.
Qed.

Lemma get_access_token_rejected (E : env) (self : client) (w : world) :
  (forall t, ~ cached_and_valid E self w t) ->
  server E (posts w) = Rejected ->
  exists w0 : world,
    get_access_token E self w
    = (Raise HTTPError, self, mk_world (ticks w0) (S (posts w))).
Proof.
  intros NV G.
  destruct (get_access_token_miss E self w NV) as [w0 [P [_ R]]].
  exists w0. rewrite R. unfold refresh_token. rewrite P, G. reflexivity.
Qed.

(** ** Headers and the listing request *)

(** The headers, case by case. With a valid cached token they carry
    [Bearer] and that token, and no POST is sent. Without one, when the
    token endpoint grants a token, they carry [Bearer] and the granted
    token, which the client then holds, after one POST; when the endpoint
    rejects the grant, [get_headers] raises the HTTP error after that one
    POST and leaves the cache as it was. In each case the API key is the
    configured one. *)
Theorem get_headers_bearer :
  forall (c : credentials) (E : env) (self : client) (w : world)
         (tok : string),
    (cached_and_valid E self w tok ->
     get_headers c E self w
     = (Ok (headers_with c tok), self, mk_world (S (ticks w)) (posts w)))
    /\ ((forall t, ~ cached_and_valid E self w t) ->
        forall ttl : option Z,
          server E (posts w) = Granted tok ttl ->
          exists (self1 : client) (w1 : world),
            get_headers c E self w = (Ok (headers_with c tok), self1, w1)
            /\ access_token self1 = Some tok
            /\ posts w1 = S (posts w))
    /\ ((forall t, ~ cached_and_valid E self w t) ->
        server E (posts w) = Rejected ->
        exists w1 : world,
          get_headers c E self w = (Raise HTTPError, self, w1)
          /\ posts w1 = S (posts w)).
Proof.
  intros c E self w tok. unfold get_headers. split; [|split].
  - intros V. rewrite (get_access_token_hit _ _ _ _ V). reflexivity.
  - intros NV ttl G.
    destruct (get_access_token_granted _ _ _ _ _ NV G) as [w0 [_ R]].
    rewrite R. do 2 eexists. split; [reflexivity|]. split; reflexivity.
  - intros NV G.
    destruct (get_access_token_rejected _ _ _ NV G) as [w0 R].
    rewrite R. eexists. split; reflexivity.
Qed.

Lemma get_headers_bearer_witness :
  let c := mk_credentials (Some "k") (Some "i") (Some "s") in
  let self := mk_client (Some "old") (Some 500%Z) in
  let w := mk_world 0 0 in
  (forall t, ~ cached_and_valid two_grants self w t)
  /\ exists (self1 : client) (w1 : world),
       get_headers c two_grants self w
       = (Ok (headers_with c "A"), self1, w1)
       /\ access_token self1 = Some "A"
       /\ posts w1 = 1%nat.
Proof.
  intros c self w.
  assert (NV : forall t, ~ cached_and_valid two_grants self w t).
  { intros t [_ [_ [x [Hx L]]]]. inversion Hx. subst x. simpl in L. lia. }
  split; [exact NV|].
  exact (proj1 (proj2 (get_headers_bearer c two_grants self w "A")) NV
           (Some 3600%Z) eq_refl).
Defined.

(** The listing request, case by case. With a valid cached token, or with a
    token the endpoint grants, the request is sent with that token and what
    it answers is returned: a list as it is, anything else that is not a
    list as the empty list, an exception as that exception. When the token
    endpoint rejects the grant, the call raises the HTTP error whatever the
    listing would answer, and the cache is as it was. A valid token costs no
    POST, a grant or a rejection one. *)
Theorem get_freight_proposals_outcome :
  forall (c : credentials) (E : env) (listing : listing_endpoint)
         (limit : nat) (self : client) (w : world) (tok : string),
    (cached_and_valid E self w tok ->
     get_freight_proposals c E listing limit self w
     = (listed (listing limit (headers_with c tok)), self,
        mk_world (S (ticks w)) (posts w)))
    /\ ((forall t, ~ cached_and_valid E self w t) ->
        forall ttl : option Z,
          server E (posts w) = Granted tok ttl ->
          exists (self1 : client) (w1 : world),
            get_freight_proposals c E listing limit self w
            = (listed (listing limit (headers_with c tok)), self1, w1)
            /\ access_token self1 = Some tok
            /\ posts w1 = S (posts w))
    /\ ((forall t, ~ cached_and_valid E self w t) ->
        server E (posts w) = Rejected ->
        exists w1 : world,
          get_freight_proposals c E listing limit self w
          = (Raise HTTPError, self, w1)
          /\ posts w1 = S (posts w)).
Proof.
  intros c E listing limit self w tok.
  assert (L : forall h : headers,
             (data <- listing limit h ;;
              Ok (match data with JList l => l | _ => [] end))
             = listed (listing limit h)).
  { intros h. unfold listed.
    destruct (listing limit h) as [[| | | | |]|]; reflexivity. }
  unfold get_freight_proposals, get_headers. split; [|split].
  - intros V. rewrite (get_access_token_hit _ _ _ _ V).
    change (bearer (Some tok)) with ("Bearer " ++ tok)%string.
    fold (headers_with c tok). rewrite L. reflexivity.
  - intros NV ttl G.
    destruct (get_access_token_granted _ _ _ _ _ NV G) as [w0 [_ R]].
    rewrite R. change (bearer (Some tok)) with ("Bearer " ++ tok)%string.
    fold (headers_with c tok). rewrite L.
    do 2 eexists. split; [reflexivity|]. split; reflexivity.
  - intros NV G.
    destruct (get_access_token_rejected _ _ _ NV G) as [w0 R].
    rewrite R. eexists. split; reflexivity.
Qed.

Lemma get_freight_proposals_outcome_witness :
  let c := mk_credentials (Some "k") (Some "i") (Some "s") in
  let self := mk_client (Some "old") (Some 500%Z) in
  let w := mk_world 0 0 in
  let listing : listing_endpoint :=
    fun _ h => if String.eqb (Authorization h) "Bearer A"
               then Ok (JList [unpriced_offer "DE" "FR"])
               else Raise HTTPError in
  (forall t, ~ cached_and_valid two_grants self w t)
  /\ exists (self1 : client) (w1 : world),
       get_freight_proposals c two_grants listing 100 self w
       = (Ok [unpriced_offer "DE" "FR"], self1, w1)
       /\ posts w1 = 1%nat.
Proof.
  intros c self w listing.
  assert (NV : forall t, ~ cached_and_valid two_grants self w t).
  { intros t [_ [_ [x [Hx L]]]]. inversion Hx. subst x. simpl in L. lia. }
  split; [exact NV|].
  destruct (proj1 (proj2 (get_freight_proposals_outcome c two_grants listing
                            100 self w "A")) NV (Some 3600%Z) eq_refl)
    as [self1 [w1 [H [_ P]]]].
  exists self1, w1. split; [exact H|exact P].
Defined.

(** ** The drill-down on one route *)

(** The drill-down selects by the upper-cased code. It answers not-found
    exactly when no record lies on that route; when it answers with details
    these carry the upper-cased code and the records of that route, all of
    them, in their order, with their number as count; and a code selects the
    same records in whatever case it is written. *)
Theorem route_details_selection :
  forall (freight_data : list Freight.t) (route_code : string),
    (route_details freight_data route_code = Ok (RouteNotFound route_code)
     <-> forall f, In f freight_data ->
                   Freight.route f <> upper_string route_code)
    /\ (forall (r : string) (fs : list Freight.t) (st : route_statistics),
           route_details freight_data route_code = Ok (RouteDetails r fs st) ->
           r = upper_string route_code
           /\ fs = on_route route_code freight_data
           /\ (forall f, In f fs <->
                         In f freight_data
                         /\ Freight.route f = upper_string route_code)
           /\ count st = List.length fs)
    /\ on_route (upper_string route_code) freight_data
       = on_route route_code freight_data.
Proof.
  intros fd rc.
  assert (Sel : forall f, In f (on_route rc fd) <->
                          In f fd /\ Freight.route f = upper_string rc).
  { intros f. unfold on_route. rewrite filter_In, String.eqb_eq.
    reflexivity. }
  unfold route_details. fold (on_route rc fd).
  split; [|split].
  - destruct (on_route rc fd) as [|f0 fs] eqn:O.
    + split; [|reflexivity]. intros _ f I E.
      apply (proj2 (Sel f) (conj I E)).
    + split.
      * intros H. destruct (statistics_of (f0 :: fs)); discriminate.
      * intros H. exfalso.
        destruct (proj1 (Sel f0) (or_introl eq_refl)) as [I E].
        exact (H f0 I E).
  - intros r fs st H.
    destruct (on_route rc fd) as [|f0 fs0] eqn:O; [discriminate|].
    destruct (statistics_of (f0 :: fs0)) as [st0|e] eqn:S;
      simpl in H; [|discriminate].
    inversion H. subst r fs st0.
    split; [reflexivity|]. split; [reflexivity|]. split; [exact Sel|].
    unfold statistics_of in S.
    destruct (numbers (map Freight.price (f0 :: fs0))) as [ps|]; simpl in S;
      [|discriminate].
    repeat (match type of S with
            | bind ?m _ = _ => destruct m; simpl in S; [|discriminate]
            end).
    inversion S. reflexivity.
  - unfold on_route. rewrite upper_string_idem. reflexivity.
Qed.

Lemma route_details_selection_witness :
  let fd := [record_on "DE" "FR" 50; record_on "PL" "DE" 80;
             record_on "PL" "DE" 160] in
  exists st : route_statistics,
    route_details fd "pl-de"
    = Ok (RouteDetails "PL-DE"
            [record_on "PL" "DE" 80; record_on "PL" "DE" 160] st)
    /\ count st = 2%nat.
Proof.
  intros fd.
  destruct (route_details fd "pl-de") as [[| |r fs st|]|] eqn:H;
    try (vm_compute in H; discriminate).
  destruct (proj1 (proj2 (route_details_selection fd "pl-de")) r fs st H)
    as [Er [Ef [_ Ec]]].
  exists st. subst r fs. split; [reflexivity|]. rewrite Ec. reflexivity.
Defined.

(** ** The endpoints *)




Lemma unique_routes_le (fd : list Freight.t) :
  (unique_routes fd <= List.length fd)%nat.
Proof.
  unfold unique_routes. rewrite <- (length_map Freight.route fd).
  apply NoDup_incl_length; [apply NoDup_nodup|].
  intros r I. apply nodup_In in I. exact I.
Qed.

Lemma detect_sorted (fd : list Freight.t) (out : list Stats.t) :
  detect_arbitrage_opportunities fd = Some out ->
  StronglySorted ranks_before out.
Proof.
  intros H. destruct fd as [|f fd].
  - inversion H. constructor.
  - unfold detect_arbitrage_opportunities in H.
    destruct (pd_DataFrame (f :: fd)) as [df|]; [|discriminate].
    inversion H as [E]. clear H E.
    pose proof (sort_values_desc_stable _ _
                  (StronglySorted_filter' _ is_arbitrage _
                     (route_analysis_sorted df))) as S.
    revert S. apply StronglySorted_weaken.
    intros a b [L|[E B]]; [left; exact L|right].
    split; [symmetry; exact E|exact B].
Qed.

Lemma StronglySorted_app_inv {A : Type} (R : A -> A -> Prop)
  (l1 l2 : list A) :
  StronglySorted R (l1 ++ l2) ->
  forall a b, In a l1 -> In b l2 -> R a b.
Proof.
  induction l1 as [|x l1 IH]; simpl; intros S a b Ia Ib; [destruct Ia|].
  apply StronglySorted_inv in S. destruct S as [S F].
  destruct Ia as [<-|Ia].
  - rewrite Forall_forall in F. apply F. apply in_or_app. right. exact Ib.
  - apply IH; assumption.
Qed.

Lemma ranks_before_le (a b : Stats.t) :
  ranks_before a b -> Stats.price_volatility b <= Stats.price_volatility a.
Proof.
  intros [L|[E _]]; [apply Qlt_le_weak; exact L|].
  rewrite E. apply Qle_refl.
Qed.

Lemma detect_all_above (fd : list Freight.t) (out : list Stats.t) :
  detect_arbitrage_opportunities fd = Some out ->
  forall row, In row out -> (2 # 10) < Stats.price_volatility row.
Proof.
  intros H row I.
  destruct (detect_rows _ _ H) as [->|[df [D P]]]; [destruct I|].
  apply (Permutation_in _ (Permutation_sym P)) in I.
  apply filter_In in I. destruct I as [_ A].
  apply is_arbitrage_spec in A. exact (proj1 A).
Qed.

Lemma analysis_body_done (fd : list Freight.t) (summary : analysis_summary)
  (shown : list Stats.t) (freights : list Freight.t) :
  analysis_body fd = Some (AnalysisDone summary shown freights) ->
  exists all : list Stats.t,
    detect_arbitrage_opportunities fd = Some all
    /\ fd <> []
    /\ summary = mk_analysis_summary (List.length fd) (unique_routes fd)
                   (List.length all) (mean_volatility_of all)
    /\ shown = firstn 10 all
    /\ freights = firstn 10 fd.
Proof.
  intros H. unfold analysis_body in H.
  destruct fd as [|f0 fd']; [discriminate|].
  destruct (detect_arbitrage_opportunities (f0 :: fd')) as [all|] eqn:D;
    [|discriminate].
  injection H as Es Esh Ef. exists all.
  split; [reflexivity|]. split; [discriminate|].
  split; [symmetry; exact Es|]. split; symmetry; assumption.
Qed.

Lemma detect_descends (fd : list Freight.t) (out : list Stats.t) :
  detect_arbitrage_opportunities fd = Some out ->
  StronglySorted volatility_descends out.
Proof.
  intros H. pose proof (detect_sorted _ _ H) as S.
  revert S. apply StronglySorted_weaken. exact ranks_before_le.
Qed.

(** The opportunities [/api/analyze] shows are the first ten of the
    detector's result, or all of them when there are fewer. They stand in
    non-increasing order of volatility, and no opportunity left out has a
    volatility above that of one shown; the summary counts all
    opportunities, shown or not. *)
Theorem analysis_shows_the_top_ten :
  forall (fd : list Freight.t) (summary : analysis_summary)
         (shown : list Stats.t) (freights : list Freight.t),
    analysis_body fd = Some (AnalysisDone summary shown freights) ->
    exists all : list Stats.t,
      detect_arbitrage_opportunities fd = Some all
      /\ all = shown ++ skipn 10 all
      /\ (List.length shown <= 10)%nat
      /\ opportunities summary = List.length all
      /\ StronglySorted volatility_descends shown
      /\ forall a b, In a shown -> In b (skipn 10 all) ->
                     Stats.price_volatility b <= Stats.price_volatility a.
Proof.
  intros fd summary shown freights H.
  destruct (analysis_body_done _ _ _ _ H) as [all [D [_ [Es [Esh _]]]]].
  subst summary shown. exists all.
  pose proof (detect_descends _ _ D) as S.
  rewrite <- (firstn_skipn 10 all) in S.
  split; [exact D|]. split; [symmetry; apply firstn_skipn|].
  split; [apply firstn_le_length|]. split; [reflexivity|].
  split.
  - clear D H. revert S. generalize (skipn 10 all).
    induction (firstn 10 all) as [|x l IH]; intros t S; [constructor|].
    simpl in S. apply StronglySorted_inv in S. destruct S as [S F].
    constructor; [eapply IH; exact S|].
    apply Forall_app in F. exact (proj1 F).
  - intros a b Ia Ib.
    exact (StronglySorted_app_inv _ _ _ S a b Ia Ib).
Qed.

Lemma analysis_shows_the_top_ten_witness :
  let fd := [record_on "PL" "DE" 100; record_on "PL" "DE" 150;
             record_on "ES" "IT" 10; record_on "ES" "IT" 90] in
  exists (summary : analysis_summary) (shown : list Stats.t)
         (freights : list Freight.t),
    analysis_body fd = Some (AnalysisDone summary shown freights)
    /\ opportunities summary = 2%nat
    /\ StronglySorted volatility_descends shown.
Proof.
  intros fd.
  destruct (analysis_body fd) as [[| |summary shown freights|]|] eqn:H;
    try (vm_compute in H; discriminate).
  destruct (analysis_shows_the_top_ten fd summary shown freights H)
    as [all [D [_ [_ [O [S _]]]]]].
  exists summary, shown, freights. split; [reflexivity|].
  split; [|exact S].
  rewrite O. vm_compute in D. inversion D. reflexivity.
Defined.

Lemma mean_volatility_floor (opps : list Stats.t) :
  opps <> [] ->
  (forall row, In row opps -> (2 # 10) < Stats.price_volatility row) ->
  (2 # 10) <= mean_volatility_of opps.
Proof.
  intros Hne A. unfold mean_volatility_of.
  destruct opps as [|o opps']; [congruence|]. set (opps := o :: opps') in *.
  set (vs := map Stats.price_volatility opps).
  assert (B : forall q, In q vs -> (2 # 10) <= q <= series_max vs).
  { intros q I. split.
    - apply in_map_iff in I. destruct I as [row [Er Ir]]. subst q.
      apply Qlt_le_weak. apply A. exact Ir.
    - apply series_min_max_bounds. exact I. }
  destruct (fold_Qplus_bounds _ _ vs B 0) as [L _].
  assert (Len : List.length vs = List.length opps)
    by (unfold vs; apply length_map).
  rewrite Len in L.
  assert (P : 0 < inject_Z (Z.of_nat (List.length opps))).
  { unfold Qlt. simpl. lia. }
  assert (M : (2 # 10)
              <= series_sum vs / inject_Z (Z.of_nat (List.length opps))).
  { apply Qle_shift_div_l; [exact P|]. unfold series_sum.
    set (N := inject_Z (Z.of_nat (List.length opps))) in *. lra. }
  apply (round_monotone 3) in M.
  eapply Qle_trans; [|exact M]. vm_compute. discriminate.
Qed.

(** The summary of [/api/analyze] is consistent. There are at most as many
    opportunities as routes and at most as many routes as offers, the routes
    counted are the rows of the analysis, and the mean volatility is 0 when
    no opportunity was found and at least 0.2 otherwise. *)
Theorem analysis_summary_consistent :
  forall (fd : list Freight.t) (summary : analysis_summary)
         (shown : list Stats.t) (freights : list Freight.t),
    analysis_body fd = Some (AnalysisDone summary shown freights) ->
    (opportunities summary <= analysed_routes summary)%nat
    /\ (analysed_routes summary <= analysed_offers summary)%nat
    /\ analysed_offers summary = List.length fd
    /\ (forall df, pd_DataFrame fd = Some df ->
                   analysed_routes summary = List.length (route_analysis df))
    /\ (opportunities summary = 0%nat -> mean_volatility summary = 0)
    /\ ((0 < opportunities summary)%nat ->
        (2 # 10) <= mean_volatility summary)
    /\ freights = firstn 10 fd.
Proof.
  intros fd summary shown freights H.
  destruct (analysis_body_done _ _ _ _ H) as [all [D [_ [Es [_ Ef]]]]].
  subst summary.
  cbn [opportunities analysed_routes analysed_offers mean_volatility].
  split.
  { destruct (detect_rows _ _ D) as [->|[df [Df P]]]; [simpl; lia|].
    rewrite <- (Permutation_length P), <- (groups_are_unique_routes _ _ Df).
    apply filter_length_le. }
  split; [apply unique_routes_le|]. split; [reflexivity|].
  split; [intros df Df; symmetry; apply groups_are_unique_routes; exact Df|].
  split.
  { intros Z0. destruct all; [reflexivity|discriminate]. }
  split; [|exact Ef].
  intros P. apply mean_volatility_floor.
  - intros N. rewrite N in P. simpl in P. lia.
  - apply (detect_all_above _ _ D).
Qed.

Lemma analysis_summary_consistent_witness :
  let fd := [record_on "PL" "DE" 100; record_on "PL" "DE" 150;
             record_on "ES" "IT" 10; record_on "ES" "IT" 90;
             record_on "DE" "FR" 70] in
  exists (summary : analysis_summary) (shown : list Stats.t)
         (freights : list Freight.t),
    analysis_body fd = Some (AnalysisDone summary shown freights)
    /\ (opportunities summary <= analysed_routes summary)%nat
    /\ (analysed_routes summary <= analysed_offers summary)%nat.
Proof.
  intros fd.
  destruct (analysis_body fd) as [[| |summary shown freights|]|] eqn:H;
    try (vm_compute in H; discriminate).
  destruct (analysis_summary_consistent fd summary shown freights H)
    as [A [B _]].
  exists summary, shown, freights. split; [reflexivity|]. split; assumption.
Defined.

(** When the listing answers with something that is not a list, or with the
    empty list, the configured endpoints do not fail: [/api/freights]
    answers with no record, counts of 0 and a mean price of 0, and
    [/api/analyze] answers that there is no data. *)
Theorem endpoints_without_offers :
  forall (c : credentials) (E : env) (listing : listing_endpoint)
         (self self1 : client) (w w1 : world) (h : headers) (body : json),
    is_configured c = true ->
    get_headers c E self w = (Ok h, self1, w1) ->
    (forall limit, listing limit h = Ok body) ->
    match body with JList l => l | _ => [] end = [] ->
    get_freights c E listing self w
    = (FreightsListed [] 0 (mk_freights_summary 0 0 0), self1, w1)
    /\ analyze_arbitrage c E listing self w
       = (Some AnalysisNoData, self1, w1).
Proof.
  intros c E listing self self1 w w1 h body C G L B.
  unfold get_freights, analyze_arbitrage, get_freight_proposals.
  rewrite C, G, !L. cbn [negb bind]. rewrite B. split; reflexivity.
Qed.

Lemma endpoints_without_offers_witness :
  let c := mk_credentials (Some "k") (Some "i") (Some "s") in
  let self := mk_client (Some "old") (Some 500%Z) in
  let listing : listing_endpoint :=
    fun _ _ => Ok (JDict [("error", JStr "maintenance")]) in
  analyze_arbitrage c two_grants listing self (mk_world 0 0)
  = (Some AnalysisNoData, mk_client (Some "A") (Some 4540%Z), mk_world 2 1).
Proof.
  intros c self listing.
  refine (proj2 (endpoints_without_offers c two_grants listing self _
                   (mk_world 0 0) _
                   (mk_headers "application/json" "application/json"
                      "Bearer A" (Some "k"))
                   (JDict [("error", JStr "maintenance")])
                   eq_refl _ (fun _ => eq_refl) eq_refl)).
  vm_compute. reflexivity.
Defined.

(** [/api/status], once configured, case by case. With a valid cached
    token it answers ready with [has_token] true and sends no POST. Without
    one, when the token endpoint grants a token, it answers ready after one
    POST, the client holds the granted token, and [has_token] is false only
    if that token is the empty string; when the endpoint rejects the grant,
    it answers with the HTTP error after that one POST and leaves the cache
    as it was. The timestamp of a ready answer is the reading of the clock
    that follows the readings of [get_access_token]. *)
Theorem api_status_outcome :
  forall (c : credentials) (E : env) (self : client) (w : world)
         (tok : string),
    is_configured c = true ->
    (cached_and_valid E self w tok ->
     api_status c E self w
     = (StatusReady true (clock E (S (ticks w))), self,
        mk_world (S (S (ticks w))) (posts w)))
    /\ ((forall t, ~ cached_and_valid E self w t) ->
        forall ttl : option Z,
          server E (posts w) = Granted tok ttl ->
          exists (self1 : client) (w1 : world) (timestamp : Z),
            api_status c E self w
            = (StatusReady (truthy tok) timestamp, self1, w1)
            /\ access_token self1 = Some tok
            /\ timestamp = clock E (pred (ticks w1))
            /\ posts w1 = S (posts w))
    /\ ((forall t, ~ cached_and_valid E self w t) ->
        server E (posts w) = Rejected ->
        exists w1 : world,
          api_status c E self w = (StatusError HTTPError, self, w1)
          /\ posts w1 = S (posts w)).
Proof.
  intros c E self w tok C. unfold api_status. rewrite C. cbn [negb].
  split; [|split].
  - intros V. rewrite (get_access_token_hit _ _ _ _ V). simpl.
    destruct V as [_ [N _]]. apply truthy_nonempty in N. rewrite N.
    reflexivity.
  - intros NV ttl G.
    destruct (get_access_token_granted _ _ _ _ _ NV G) as [w0 [_ R]].
    rewrite R. do 3 eexists. split; [reflexivity|].
    split; [reflexivity|]. split; reflexivity.
  - intros NV G.
    destruct (get_access_token_rejected _ _ _ NV G) as [w0 R].
    rewrite R. eexists. split; reflexivity.
Qed.

Lemma api_status_outcome_witness :
  let c := mk_credentials (Some "k") (Some "i") (Some "s") in
  let self := mk_client (Some "old") (Some 500%Z) in
  let w := mk_world 0 0 in
  is_configured c = true
  /\ (forall t, ~ cached_and_valid two_grants self w t)
  /\ exists (self1 : client) (w1 : world) (timestamp : Z),
       api_status c two_grants self w
       = (StatusReady true timestamp, self1, w1)
       /\ posts w1 = 1%nat.
Proof.
  intros c self w.
  assert (NV : forall t, ~ cached_and_valid two_grants self w t).
  { intros t [_ [_ [x [Hx L]]]]. inversion Hx. subst x. simpl in L. lia. }
  split; [reflexivity|]. split; [exact NV|].
  destruct (proj1 (proj2 (api_status_outcome c two_grants self w "A"
                            eq_refl)) NV (Some 3600%Z) eq_refl)
    as [self1 [w1 [ts [H [_ [_ P]]]]]].
  exists self1, w1, ts. split; [exact H|exact P].
Defined.
